(** * resolver: a Python-flavoured expression parser and evaluator

    A shallow embedding of [src/abstract_syntax_tree.ts] (the AST node model,
    [resolve] and [freeVariables]) and of [src/parser.ts] (the grammar built
    from parsimmon combinators), followed by the properties of the program.

    Modelling conventions.
    - A JavaScript [number] is a binary64 float: Rocq's primitive [float].
    - Source text and string values are strings of 8-bit characters.
    - The [Environment] object is used by the program as a dictionary of own
      properties; it is a [gmap string ExpressionResult].  Names inherited
      from [Object.prototype] are outside the model.
    - Arrays are never updated in place by the program; an array value
      carries the identity of its allocation (which is what [===] compares)
      together with its elements.  A hole of a sparse array reads as
      [undefined], so it is represented by [VUndefined].
    - The JavaScript built-ins that the program calls but that ECMAScript
      leaves to the implementation, or that live in the host application,
      are the fields of the class [Host]. *)

From Stdlib Require Import ZArith PrimFloat SpecFloat FloatOps.
From Stdlib Require Import Ascii String.
From stdpp Require Import gmap strings list pretty.

Set Default Proof Using "Type".
Set Warnings "-clear-no-such-hyp".

(** Induction over a type that nests [list], such as [Expression]. *)
Scheme All for list.

(** ** Numbers *)

Module Num.

Local Open Scope Z_scope.

Definition nan : float := PrimFloat.nan.
Definition pos_zero : float := PrimFloat.zero.
Definition neg_zero : float := PrimFloat.neg_zero.

(** The float nearest to [m * 2^e] (ties to even). *)
Definition of_scaled (m e : Z) : float :=
  SF2Prim (binary_normalize prec emax m e false).

(** The float nearest to the rational [n / d]: the quotient is computed
    with more than 63 significant bits and a sticky bit records an inexact
    division, so that the final rounding is that of the exact value. *)
Definition of_ratio (n d : positive) : float :=
  let s := Z.max 0 (64 + Z.log2 (Z.pos d) - Z.log2 (Z.pos n)) in
  let q := (Z.pos n * 2 ^ s) / Z.pos d in
  let r := (Z.pos n * 2 ^ s) mod Z.pos d in
  of_scaled (2 * q + (if r =? 0 then 0 else 1))%Z (- (s + 1)).

(** [integer_value f] is [Some z] exactly when [f] is finite and its value
    is the integer [z]. *)
Definition integer_value (f : float) : option Z :=
  match Prim2SF f with
  | S754_zero _ => Some 0%Z
  | S754_finite s m e =>
      let mag :=
        if (0 <=? e)%Z then Some (Z.pos m * 2 ^ e)%Z
        else if (Z.pos m mod 2 ^ (- e) =? 0)%Z then Some (Z.pos m / 2 ^ (- e))%Z
        else None in
      (if s then Z.opp else id) <$> mag
  | _ => None
  end.

(** ECMAScript [ToIntegerOrInfinity]: NaN is 0, finite values are
    truncated toward zero, the infinities are kept. *)
Inductive ext_int := NegInf | Fin (z : Z) | PosInf.

Definition ToIntegerOrInfinity (f : float) : ext_int :=
  match Prim2SF f with
  | S754_nan => Fin 0
  | S754_zero _ => Fin 0
  | S754_infinity s => if s then NegInf else PosInf
  | S754_finite s m e =>
      let mag := if (0 <=? e)%Z then (Z.pos m * 2 ^ e)%Z
                 else (Z.pos m / 2 ^ (- e))%Z in
      Fin (if s then - mag else mag)%Z
  end.

(** ECMAScript [Number::remainder], the [%] operator: the exact
    remainder of the truncating division, with the sign of the dividend. *)
Definition remainder (n d : float) : float :=
  match Prim2SF n, Prim2SF d with
  | S754_nan, _ | _, S754_nan => nan
  | S754_infinity _, _ => nan
  | _, S754_zero _ => nan
  | _, S754_infinity _ => n
  | S754_zero _, _ => n
  | S754_finite sn mn en, S754_finite _ md ed =>
      let e := Z.min en ed in
      let a := (Z.pos mn * 2 ^ (en - e))%Z in
      let b := (Z.pos md * 2 ^ (ed - e))%Z in
      let r := (a mod b)%Z in
      if (r =? 0)%Z then (if sn then neg_zero else pos_zero)
      else of_scaled (if sn then - r else r)%Z e
  end.

(** Decimal digits. *)
Definition is_digit (c : ascii) : bool :=
  let n := Ascii.nat_of_ascii c in (48 <=? n)%nat && (n <=? 57)%nat.

Definition digit_value (c : ascii) : Z := Z.of_nat (Ascii.nat_of_ascii c) - 48.

Fixpoint take_digits (s : string) : string * string :=
  match s with
  | String.String c r =>
      if is_digit c then let '(ds, rest) := take_digits r in (String.String c ds, rest)
      else (EmptyString, s)
  | EmptyString => (EmptyString, EmptyString)
  end.

Fixpoint digits_value (acc : Z) (s : string) : Z :=
  match s with
  | String.String c r => digits_value (10 * acc + digit_value c) r
  | EmptyString => acc
  end.

(** The built-in [parseFloat] on unsigned decimal text without exponent,
    the only text [number_parser] hands to it: the longest prefix of the
    form [digits], [digits.], [digits.digits] or [.digits] is converted to
    the nearest float; a text with no such prefix gives NaN. *)
Definition parseFloat (s : string) : float :=
  let '(int_part, rest) := take_digits s in
  let frac_part :=
    match rest with
    | String.String "."%char r => fst (take_digits r)
    | _ => EmptyString
    end in
  if (String.length int_part + String.length frac_part =? 0)%nat then nan
  else
    match digits_value 0 (int_part +:+ frac_part) with
    | Z.pos n => of_ratio n (Z.to_pos (10 ^ Z.of_nat (String.length frac_part)))
    | _ => pos_zero
    end.

End Num.

(** ** The AST node model: [src/abstract_syntax_tree.ts] *)

Module AST.

(** [ExpressionResult]: number, boolean, string, function, null or an
    array of results; [undefined] also occurs at run time (reading an array
    out of range) and is therefore a value of the model. *)
Inductive ExpressionResult :=
| VNumber (n : float)
| VBoolean (b : bool)
| VString (s : string)
| VFunction (f : N)
| VNull
| VUndefined
| VArray (id : N) (elements : list ExpressionResult).

Abbreviation Environment := (gmap string ExpressionResult).

(** The errors thrown, one constructor per [throw] of the source, and the
    exception of a host function. *)
Inductive Error :=
| MethodNotImplemented
| FactorialNotDefined (value : ExpressionResult)
| LeftSideMustBeVariable
| VariableNotDefined (variable : string)
| NotAnArray (list : ExpressionResult)
| IndexNotANumber (index : ExpressionResult)
| FromIndexNotANumber (from_index : ExpressionResult)
| ToIndexNotANumber (to_index : ExpressionResult)
| NotAFunction (fn : ExpressionResult)
| HostException (thrown : ExpressionResult).

(** How a call ends: with a value, with an exception, or never. *)
Inductive Completion (A : Type) :=
| Return (a : A)
| Throw (e : Error)
| Diverge.
Arguments Return {A} a.
Arguments Throw {A} e.
Arguments Diverge {A}.

(** Code running against a mutable store [S]: the store is threaded
    through, and it keeps the writes made before an exception. *)
Definition Eff (S A : Type) : Type := S -> Completion A * S.

Definition ret {S A} (a : A) : Eff S A := fun st => (Return a, st).
Definition throw {S A} (e : Error) : Eff S A := fun st => (Throw e, st).
Definition diverge {S A} : Eff S A := fun st => (Diverge, st).
Definition bind {S A B} (m : Eff S A) (k : A -> Eff S B) : Eff S B :=
  fun st =>
    match m st with
    | (Return a, st') => k a st'
    | (Throw e, st') => (Throw e, st')
    | (Diverge, st') => (Diverge, st')
    end.

Notation "'let!' x ':=' m 'in' k" := (bind m (fun x => k))
  (at level 10, x name, m at level 100, k at level 200).

(** [list.map(f)] and [list.forEach(f)] for an [f] with effects: the
    elements are visited in order, and an exception ends the visit. *)
Fixpoint map_in_order {S A B} (f : A -> Eff S B) (l : list A) : Eff S (list B) :=
  match l with
  | [] => ret []
  | element :: rest =>
      let! value := f element in
      let! values := map_in_order f rest in
      ret (value :: values)
  end.

(** The store of an evaluation: the environment object shared by the whole
    recursive walk, and the identity the next allocated array receives. *)
Record State := { environment : Environment; next_array : N }.

Definition get_environment : Eff State Environment :=
  fun st => (Return (environment st), st).
Definition set_environment (env : Environment) : Eff State unit :=
  fun st => (Return tt, {| environment := env; next_array := next_array st |}).
Definition new_array (elements : list ExpressionResult) : Eff State ExpressionResult :=
  fun st => (Return (VArray (next_array st) elements),
             {| environment := environment st; next_array := N.succ (next_array st) |}).

(** What the JavaScript engine and the host application provide. *)
Class Host := {
  (** [Math.pow], which ECMAScript only requires to approximate the power. *)
  Math_pow : float -> float -> float;
  (** [ToNumber] of a string (StringToNumber). *)
  StringToNumber : string -> float;
  (** [ToString] of a number (Number::toString, radix 10). *)
  NumberToString : float -> string;
  (** The source text [Function.prototype.toString] gives for a function. *)
  FunctionToString : N -> string;
  (** Calling a function value of the environment on evaluated arguments. *)
  call : N -> list ExpressionResult -> Eff State ExpressionResult;
}.

Section Semantics.
Context `{Host}.

(** *** The conversions applied by the JavaScript operators *)

Definition is_nan (n : float) : bool := negb (PrimFloat.eqb n n).

Definition ToBoolean (v : ExpressionResult) : bool :=
  match v with
  | VNumber n => negb (PrimFloat.eqb n 0 || is_nan n)
  | VBoolean b => b
  | VString s => negb (String.eqb s EmptyString)
  | VNull | VUndefined => false
  | VFunction _ | VArray _ _ => true
  end.

(** [ToString]; an array is joined with commas, its [null] and
    [undefined] elements printing as the empty string. *)
Fixpoint ToString (v : ExpressionResult) : string :=
  match v with
  | VNumber n => NumberToString n
  | VBoolean b => if b then "true" else "false"
  | VString s => s
  | VFunction f => FunctionToString f
  | VNull => "null"
  | VUndefined => "undefined"
  | VArray _ elements =>
      String.concat ","
        (List.map (fun element =>
                     match element with
                     | VNull | VUndefined => EmptyString
                     | _ => ToString element
                     end) elements)
  end.

(** [ToPrimitive]: arrays and functions become their string. *)
Definition ToPrimitive (v : ExpressionResult) : ExpressionResult :=
  match v with
  | VFunction _ | VArray _ _ => VString (ToString v)
  | _ => v
  end.

Definition ToNumber (v : ExpressionResult) : float :=
  match ToPrimitive v with
  | VNumber n => n
  | VBoolean b => if b then 1%float else 0%float
  | VString s => StringToNumber s
  | VNull => 0%float
  | _ => Num.nan
  end.

(** [a + b]: concatenation as soon as one primitive is a string. *)
Definition js_add (a b : ExpressionResult) : ExpressionResult :=
  match ToPrimitive a, ToPrimitive b with
  | VString s, pb => VString (s +:+ ToString pb)
  | pa, VString s => VString (ToString pa +:+ s)
  | pa, pb => VNumber (ToNumber pa + ToNumber pb)
  end.

(** The abstract relational comparison; [None] is its [undefined]. *)
Definition IsLessThan (x y : ExpressionResult) : option bool :=
  match ToPrimitive x, ToPrimitive y with
  | VString a, VString b => Some (String.ltb a b)
  | px, py =>
      let nx := ToNumber px in
      let ny := ToNumber py in
      if is_nan nx || is_nan ny then None else Some (PrimFloat.ltb nx ny)
  end.

Definition js_lt (a b : ExpressionResult) : bool := default false (IsLessThan a b).
Definition js_gt (a b : ExpressionResult) : bool := default false (IsLessThan b a).
Definition js_le (a b : ExpressionResult) : bool := negb (default true (IsLessThan b a)).
Definition js_ge (a b : ExpressionResult) : bool := negb (default true (IsLessThan a b)).

(** [a === b]: no conversion; arrays and functions by identity. *)
Definition IsStrictlyEqual (a b : ExpressionResult) : bool :=
  match a, b with
  | VNumber x, VNumber y => PrimFloat.eqb x y
  | VBoolean x, VBoolean y => Bool.eqb x y
  | VString x, VString y => String.eqb x y
  | VFunction f, VFunction g => N.eqb f g
  | VNull, VNull | VUndefined, VUndefined => true
  | VArray i _, VArray j _ => N.eqb i j
  | _, _ => false
  end.

(** [list[index]] for a number [index]: the element when the index is an
    integer within the array, [undefined] otherwise. *)
Definition array_get (elements : list ExpressionResult) (index : float) : ExpressionResult :=
  match Num.integer_value index with
  | Some z => if (0 <=? z)%Z then default VUndefined (elements !! Z.to_nat z) else VUndefined
  | None => VUndefined
  end.

(** [Array.prototype.slice]: a relative bound counts from the end when
    negative, and both bounds are clamped to the array. *)
Definition clamp_bound (len : Z) (bound : float) : Z :=
  match Num.ToIntegerOrInfinity bound with
  | Num.NegInf => 0
  | Num.Fin z => if (z <? 0)%Z then Z.max (len + z) 0 else Z.min z len
  | Num.PosInf => len
  end.

Definition array_slice (elements : list ExpressionResult) (from_index to_index : float)
  : list ExpressionResult :=
  let len := Z.of_nat (length elements) in
  let k := clamp_bound len from_index in
  let final := clamp_bound len to_index in
  take (Z.to_nat (final - k)) (drop (Z.to_nat k) elements).

(** *** The expression nodes

    One constructor per class, named after it; the fields are those of
    the class ([Variable_] for the class [Variable], a reserved word
    here).  [UnaryOperator] and [BinaryOperator] are the base classes,
    which can be instantiated too. *)
Inductive Expression :=
| UnaryOperator (expression : Expression)
| Negate (expression : Expression)
| Factorial (expression : Expression)
| Not (expression : Expression)
| BinaryOperator (left_expression right_expression : Expression)
| And (left_expression right_expression : Expression)
| Assignment (left_expression right_expression : Expression)
| Or (left_expression right_expression : Expression)
| Addition (left_expression right_expression : Expression)
| Subtraction (left_expression right_expression : Expression)
| Equality (left_expression right_expression : Expression)
| InEquality (left_expression right_expression : Expression)
| LessThen (left_expression right_expression : Expression)
| GreaterThen (left_expression right_expression : Expression)
| LessThenEq (left_expression right_expression : Expression)
| GreaterThenEq (left_expression right_expression : Expression)
| Exponentiate (left_expression right_expression : Expression)
| Condition (condition a b : Expression)
| Multiply (left_expression right_expression : Expression)
| Divide (left_expression right_expression : Expression)
| Modulo (left_expression right_expression : Expression)
| Number (number : float)
| Boolean (bool : bool)
| Variable_ (variable : string)
| Index (list index : Expression)
| Slice (list from_index to_index : Expression)
| List (list : list Expression)
| Apply (fn : Expression) (args : list Expression)
| String (string : string).

(** *** [freeVariables] *)

(** [Variable.freeVariables]: [hasOwnProperty] holds for a key that is
    present, whatever its value. *)
Definition Variable_freeVariables (variable : string) (environment : Environment)
  : gset string :=
  if decide (is_Some (environment !! variable)) then ∅ else {[ variable ]}.

(** [names.forEach(name => { environment[name] = value })]. *)
Definition assign_each (names : gset string) (value : ExpressionResult)
    (environment : Environment) : Environment :=
  set_fold (fun name env => <[name := value]> env) environment names.


(** *** [resolve] *)

(** Both operands are resolved, left first, and [op] is applied. *)
Definition binary (op : ExpressionResult -> ExpressionResult -> ExpressionResult)
    (left right : Eff State ExpressionResult) : Eff State ExpressionResult :=
  let! l := left in
  let! r := right in
  ret (op l r).

Definition numeric (op : float -> float -> float) (a b : ExpressionResult)
  : ExpressionResult :=
  VNumber (op (ToNumber a) (ToNumber b)).

Definition relational (op : ExpressionResult -> ExpressionResult -> bool)
    (a b : ExpressionResult) : ExpressionResult :=
  VBoolean (op a b).

(** [for (let i = 2; i <= value; i++) factorial *= i], run for a given
    number of rounds. *)
Fixpoint factorial_loop (rounds : nat) (i factorial : float) : float :=
  match rounds with
  | O => factorial
  | S rounds' => factorial_loop rounds' (i + 1)%float (factorial * i)%float
  end.

(** [Factorial.resolve] on the resolved operand.  The loop makes one
    round for each integer from 2 up to [value]; from 2^53 on, [i++]
    no longer changes [i] and the loop never ends. *)
Definition Factorial_resolve (value : ExpressionResult) : Eff State ExpressionResult :=
  if js_lt value (VNumber 0) then throw (FactorialNotDefined value)
  else
    let bound := ToNumber value in
    if PrimFloat.leb 9007199254740992 bound then diverge
    else
      match Num.ToIntegerOrInfinity bound with
      | Num.Fin z => ret (VNumber (factorial_loop (Z.to_nat (z - 1)) 2 1))
      | _ => diverge
      end.

Definition Variable_resolve (variable : string) : Eff State ExpressionResult :=
  let! environment := get_environment in
  match environment !! variable with
  | None | Some VUndefined => throw (VariableNotDefined variable)
  | Some value => ret value
  end.

Fixpoint resolve (e : Expression) : Eff State ExpressionResult :=
  match e with
  | UnaryOperator _ => throw MethodNotImplemented
  | Negate x =>
      let! v := resolve x in
      ret (VNumber (- ToNumber v))
  | Factorial x =>
      let! value := resolve x in
      Factorial_resolve value
  | Not x =>
      let! v := resolve x in
      ret (VBoolean (negb (ToBoolean v)))
  | BinaryOperator _ _ => throw MethodNotImplemented
  | And l r =>
      let! lv := resolve l in
      if ToBoolean lv then resolve r else ret lv
  | Assignment l r =>
      match l with
      | Variable_ x =>
          let! expression_result := resolve r in
          let! environment := get_environment in
          let! _ := set_environment
                      (assign_each (Variable_freeVariables x ∅) expression_result
                                   environment) in
          ret expression_result
      | _ => throw LeftSideMustBeVariable
      end
  | Or l r =>
      let! lv := resolve l in
      if ToBoolean lv then ret lv else resolve r
  | Addition l r => binary js_add (resolve l) (resolve r)
  | Subtraction l r => binary (numeric PrimFloat.sub) (resolve l) (resolve r)
  | Equality l r => binary (relational IsStrictlyEqual) (resolve l) (resolve r)
  | InEquality l r => binary (relational IsStrictlyEqual) (resolve l) (resolve r)
  | LessThen l r => binary (relational js_lt) (resolve l) (resolve r)
  | GreaterThen l r => binary (relational js_gt) (resolve l) (resolve r)
  | LessThenEq l r => binary (relational js_le) (resolve l) (resolve r)
  | GreaterThenEq l r => binary (relational js_ge) (resolve l) (resolve r)
  | Exponentiate l r => binary (numeric Math_pow) (resolve l) (resolve r)
  | Condition c a b =>
      let! cv := resolve c in
      if ToBoolean cv then resolve a else resolve b
  | Multiply l r => binary (numeric PrimFloat.mul) (resolve l) (resolve r)
  | Divide l r => binary (numeric PrimFloat.div) (resolve l) (resolve r)
  | Modulo l r => binary (numeric Num.remainder) (resolve l) (resolve r)
  | Number number => ret (VNumber number)
  | Boolean bool => ret (VBoolean bool)
  | Variable_ variable => Variable_resolve variable
  | Index l i =>
      let! list := resolve l in
      match list with
      | VArray _ elements =>
          let! index := resolve i in
          match index with
          | VNumber n => ret (array_get elements n)
          | _ => throw (IndexNotANumber index)
          end
      | _ => throw (NotAnArray list)
      end
  | Slice l f t =>
      let! list := resolve l in
      match list with
      | VArray _ elements =>
          let! from_index := resolve f in
          match from_index with
          | VNumber from =>
              let! to_index := resolve t in
              match to_index with
              | VNumber to => new_array (array_slice elements from to)
              | _ => throw (ToIndexNotANumber to_index)
              end
          | _ => throw (FromIndexNotANumber from_index)
          end
      | _ => throw (NotAnArray list)
      end
  | List l =>
      let! elements := map_in_order resolve l in
      new_array elements
  | Apply fn args =>
      let! f := resolve fn in
      match f with
      | VFunction callee =>
          let! values := map_in_order resolve args in
          call callee values
      | _ => throw (NotAFunction f)
      end
  | String string => ret (VString string)
  end.

End Semantics.
End AST.

(** ** The parsimmon combinators used by the grammar

    A parser reads a prefix of its input and replies with a value and the
    rest of the input, or fails.  Alternatives are ordered and the first
    success is final; a failure inside a sequence restarts the enclosing
    alternative from the position where it began.  Recursive grammars are
    unfolded to a depth bounded by the fuel, and a reply can say that the
    bound was hit. *)

Module Parsimmon.

Inductive Abort := InfiniteLoopDetected | OutOfFuel.

Inductive Reply (A : Type) :=
| Success (value : A) (rest : string)
| Failure
| Aborted (why : Abort).
Arguments Success {A} value rest.
Arguments Failure {A}.
Arguments Aborted {A} why.

Definition Parser (A : Type) : Type := string -> Reply A.

Definition succeed {A} (value : A) : Parser A := fun input => Success value input.
Definition fail {A} : Parser A := fun _ => Failure.
Definition abort {A} (why : Abort) : Parser A := fun _ => Aborted why.

Definition chain {A B} (p : Parser A) (f : A -> Parser B) : Parser B :=
  fun input =>
    match p input with
    | Success a rest => f a rest
    | Failure => Failure
    | Aborted why => Aborted why
    end.

Definition map {A B} (p : Parser A) (f : A -> B) : Parser B :=
  chain p (fun a => succeed (f a)).

Definition result {A B} (p : Parser A) (value : B) : Parser B :=
  map p (fun _ => value).

(** [desc] only names the parser in error messages. *)
Definition desc {A} (p : Parser A) (description : string) : Parser A := p.

Definition seq {A B} (p : Parser A) (q : Parser B) : Parser (A * B) :=
  chain p (fun a => chain q (fun b => succeed (a, b))).

Definition then_ {A B} (p : Parser A) (q : Parser B) : Parser B :=
  chain p (fun _ => q).

Definition skip {A B} (p : Parser A) (q : Parser B) : Parser A :=
  chain p (fun a => result q a).

Definition or {A} (p q : Parser A) : Parser A :=
  fun input =>
    match p input with
    | Failure => q input
    | reply => reply
    end.

Definition alt {A} (parsers : list (Parser A)) : Parser A :=
  foldr or fail parsers.

Definition trim {A B} (p : Parser A) (q : Parser B) : Parser A :=
  skip (then_ q p) q.

(** [p.many()]: repeats [p] until it fails; parsimmon throws when [p]
    succeeds without reading anything.  Every round reads at least one
    character, so the length of the input bounds the rounds. *)
Fixpoint many_loop {A} (rounds : nat) (p : Parser A) (input : string) : Reply (list A) :=
  match p input with
  | Success value rest =>
      if (String.length rest =? String.length input)%nat
      then Aborted InfiniteLoopDetected
      else
        match rounds with
        | O => Aborted OutOfFuel
        | S rounds' =>
            match many_loop rounds' p rest with
            | Success values rest' => Success (value :: values) rest'
            | Failure => Failure
            | Aborted why => Aborted why
            end
        end
  | Failure => Success [] input
  | Aborted why => Aborted why
  end.

Definition many {A} (p : Parser A) : Parser (list A) :=
  fun input => many_loop (String.length input) p input.

Definition sepBy1 {A B} (p : Parser A) (separator : Parser B) : Parser (list A) :=
  map (seq p (many (then_ separator p))) (fun '(first, rest) => first :: rest).

Definition sepBy {A B} (p : Parser A) (separator : Parser B) : Parser (list A) :=
  or (sepBy1 p separator) (succeed []).

Definition eof : Parser unit :=
  fun input => match input with EmptyString => Success tt input | _ => Failure end.

(** *** Regular expressions

    A regular expression is run at the current position and gives the text
    it matched.  Repetition is greedy; in the expressions of this grammar
    a repeated class never shares a character with what follows it, so a
    greedy match that fails cannot be repaired by giving characters back. *)

Definition Regexp : Type := string -> option (string * string).

Fixpoint take_while (class : ascii -> bool) (input : string) : string * string :=
  match input with
  | String.String c rest =>
      if class c
      then let '(matched, rest') := take_while class rest in (String.String c matched, rest')
      else (EmptyString, input)
  | EmptyString => (EmptyString, EmptyString)
  end.

Definition re_star (class : ascii -> bool) : Regexp :=
  fun input => Some (take_while class input).

Definition re_plus (class : ascii -> bool) : Regexp :=
  fun input =>
    match take_while class input with
    | (EmptyString, _) => None
    | matched => Some matched
    end.

Definition re_one (class : ascii -> bool) : Regexp :=
  fun input =>
    match input with
    | String.String c rest => if class c then Some (String.String c EmptyString, rest) else None
    | EmptyString => None
    end.

Definition re_seq (r1 r2 : Regexp) : Regexp :=
  fun input =>
    match r1 input with
    | Some (m1, rest) =>
        match r2 rest with
        | Some (m2, rest') => Some (m1 +:+ m2, rest')
        | None => None
        end
    | None => None
    end.

Definition re_alt (r1 r2 : Regexp) : Regexp :=
  fun input => match r1 input with Some m => Some m | None => r2 input end.

Definition regexp (re : Regexp) : Parser string :=
  fun input =>
    match re input with
    | Some (matched, rest) => Success matched rest
    | None => Failure
    end.

Definition code (c : ascii) : nat := Ascii.nat_of_ascii c.
Definition in_range (lo hi : ascii) (c : ascii) : bool :=
  (code lo <=? code c)%nat && (code c <=? code hi)%nat.
Definition is_char (x : ascii) (c : ascii) : bool := Ascii.eqb x c.

(** [\s] on 8-bit text: tab, line feed, vertical tab, form feed, carriage
    return and space. *)
Definition whitespace (c : ascii) : bool :=
  ((9 <=? code c)%nat && (code c <=? 13)%nat) || (code c =? 32)%nat.

Definition optWhitespace : Parser string := regexp (re_star whitespace).

Fixpoint strip_prefix (prefix input : string) : option string :=
  match prefix with
  | EmptyString => Some input
  | String.String a prefix' =>
      match input with
      | String.String b input' => if Ascii.eqb a b then strip_prefix prefix' input' else None
      | EmptyString => None
      end
  end.

Definition string (str : String.string) : Parser String.string :=
  fun input =>
    match strip_prefix str input with
    | Some rest => Success str rest
    | None => Failure
    end.

End Parsimmon.

(** ** The grammar: [src/parser.ts] *)

Module Parser.

Module P := Parsimmon.

Abbreviation Expression := AST.Expression.

(** The regular expression of [number_parser], four ordered alternatives:
    digits, a dot, digits; optional digits, a dot, digits; digits, a dot,
    optional digits; digits. *)
Definition number_regex : P.Regexp :=
  let digit := P.in_range "0" "9" in
  let dot := P.re_one (P.is_char ".") in
  P.re_alt (P.re_seq (P.re_plus digit) (P.re_seq dot (P.re_plus digit)))
    (P.re_alt (P.re_seq (P.re_star digit) (P.re_seq dot (P.re_plus digit)))
       (P.re_alt (P.re_seq (P.re_plus digit) (P.re_seq dot (P.re_star digit)))
          (P.re_plus digit))).

Definition number_parser : P.Parser Expression :=
  P.desc (P.map (P.regexp number_regex) (fun str => AST.Number (Num.parseFloat str))) "number".

Definition true_parser : P.Parser Expression :=
  P.result (P.string "True") (AST.Boolean true).
Definition false_parser : P.Parser Expression :=
  P.result (P.string "False") (AST.Boolean false).
Definition bool_parser : P.Parser Expression :=
  P.desc (P.alt [true_parser; false_parser]) "boolean".

(** A letter or underscore, then letters, digits, underscores and dots. *)
Definition variable_name_regex : P.Regexp :=
  let letter c := P.in_range "A" "Z" c || P.in_range "a" "z" c || P.is_char "_" c in
  P.re_seq (P.re_one letter)
         (P.re_star (fun c => letter c || P.in_range "0" "9" c || P.is_char "." c)).

Definition double_quote : ascii := Ascii.ascii_of_nat 34.
Definition single_quote : ascii := Ascii.ascii_of_nat 39.
Definition quote (c : ascii) : string := String.String c EmptyString.

Definition string_parser : P.Parser Expression :=
  P.desc
    (P.map
       (P.alt [ P.seq (P.string (quote double_quote))
                  (P.seq (P.regexp (P.re_star (fun c => negb (P.is_char double_quote c))))
                     (P.string (quote double_quote)));
                P.seq (P.string (quote single_quote))
                  (P.seq (P.regexp (P.re_star (fun c => negb (P.is_char single_quote c))))
                     (P.string (quote single_quote))) ])
       (fun '(_left, (value, _right)) => AST.String value))
    "string".

Definition variable_parser : P.Parser Expression :=
  P.desc (P.map (P.regexp variable_name_regex) (fun variable_name => AST.Variable_ variable_name))
       "free variable".

(** The rules that refer back to the whole expression grammar ([lazy] in
    the source) take the parser they refer to as [expression_parser]. *)
Section Primary.
Variable expression_parser : P.Parser Expression.

Definition parens_parser : P.Parser Expression :=
  P.desc
    (P.map (P.seq (P.string "(") (P.seq expression_parser (P.string ")")))
         (fun '(_open_bracked, (expression, _close_bracket)) => expression))
    "parenthesized expression".

Definition index_parser : P.Parser Expression :=
  P.desc
    (P.map (P.seq (P.or variable_parser parens_parser)
            (P.seq (P.string "[")
               (P.seq (P.trim expression_parser P.optWhitespace)
                  (P.string "]"))))
         (fun '(variable, (_open_bracked, (index_expression, _close_bracket))) =>
            AST.Index variable index_expression))
    "index expression".

Definition slice_parser : P.Parser Expression :=
  P.desc
    (P.map (P.seq (P.or variable_parser parens_parser)
            (P.seq (P.string "[")
               (P.seq (P.trim expression_parser P.optWhitespace)
                  (P.seq (P.string ":")
                     (P.seq (P.trim expression_parser P.optWhitespace)
                        (P.string "]"))))))
         (fun '(variable, (_open_bracked, (start_expression, (_colon,
                  (end_expression, _close_bracket))))) =>
            AST.Slice variable start_expression end_expression))
    "slice expression".

Definition list_parser : P.Parser Expression :=
  P.desc
    (P.map (P.seq (P.trim (P.string "[") P.optWhitespace)
            (P.seq (P.map (P.sepBy expression_parser (P.trim (P.string ",") P.optWhitespace))
                      (fun elements => AST.List elements))
               (P.trim (P.string "]") P.optWhitespace)))
         (fun '(_bracked_open, (elements, _bracked_close)) => elements))
    "list expression".

Definition apply_parser : P.Parser Expression :=
  P.map (P.seq (P.or variable_parser parens_parser)
         (P.seq (P.string "(")
            (P.seq (P.trim (P.sepBy expression_parser (P.trim (P.string ",") P.optWhitespace))
                       P.optWhitespace)
               (P.string ")"))))
      (fun '(fn, (_bracked_open, (args, _bracked_close))) => AST.Apply fn args).

Definition primary_parser : P.Parser Expression :=
  P.alt [ number_parser;
        bool_parser;
        string_parser;
        list_parser;
        apply_parser;
        index_parser;
        slice_parser;
        parens_parser;
        variable_parser ].
End Primary.

(** An operator token and the node constructor it stands for. *)
Record Operator (T : Type) := {
  operator_str : string;
  constructor : T;
  description : string;
}.
Arguments operator_str {T} _.
Arguments constructor {T} _.
Arguments description {T} _.

Definition IUnaryOperator : Type := Expression -> Expression.
Definition IBinaryOperator : Type := Expression -> Expression -> Expression.

Definition createOperatorParser {T} (operators : list (Operator T)) : P.Parser T :=
  P.alt (List.map
         (fun o => P.desc (P.result (P.trim (P.string (operator_str o)) P.optWhitespace)
                                (constructor o))
                        (description o))
         operators).

(** [unaryPreFixParser]: the parser refers to itself after an operator. *)
Fixpoint unaryPreFixParser (fuel : nat) (prev_parser : P.Parser Expression)
    (operator_parser : P.Parser IUnaryOperator) : P.Parser Expression :=
  match fuel with
  | O => P.abort P.OutOfFuel
  | S fuel' =>
      P.or (P.map (P.seq operator_parser (unaryPreFixParser fuel' prev_parser operator_parser))
              (fun '(constructor, expression) => constructor expression))
         prev_parser
  end.

Definition leftAssociativeBinaryOperatorParser (prev_parser : P.Parser Expression)
    (operator_parser : P.Parser IBinaryOperator) : P.Parser Expression :=
  P.map (P.seq prev_parser (P.many (P.seq operator_parser prev_parser)))
      (fun '(first, rest) =>
         foldl (fun left_expression '(constructor, right_expression) =>
                  constructor left_expression right_expression)
               first rest).

(** [rightAssociativeBinaryOperatorParser]: the right operand is parsed
    by the parser itself. *)
Fixpoint rightAssociativeBinaryOperatorParser (fuel : nat) (prev_parser : P.Parser Expression)
    (operator_parser : P.Parser IBinaryOperator) : P.Parser Expression :=
  match fuel with
  | O => P.abort P.OutOfFuel
  | S fuel' =>
      P.chain prev_parser (fun left_expression =>
        P.or (P.map (P.seq operator_parser
                     (rightAssociativeBinaryOperatorParser fuel' prev_parser operator_parser))
                (fun '(constructor, right_expression) =>
                   constructor left_expression right_expression))
           (P.succeed left_expression))
  end.

Fixpoint condition_parser (fuel : nat) (prev_parser : P.Parser Expression) : P.Parser Expression :=
  match fuel with
  | O => P.abort P.OutOfFuel
  | S fuel' =>
      P.chain prev_parser (fun a =>
        P.or (P.map (P.seq (P.trim (P.string "if") P.optWhitespace)
                   (P.seq prev_parser
                      (P.seq (P.trim (P.string "else") P.optWhitespace)
                         (condition_parser fuel' prev_parser))))
                (fun '(_if, (condition, (_else, b))) => AST.Condition condition a b))
           (P.succeed a))
  end.

Definition operator {T} (operator_str : string) (constructor : T) (description : string)
  : Operator T :=
  {| operator_str := operator_str; constructor := constructor; description := description |}.

Definition associativity_table (fuel : nat) : list (P.Parser Expression -> P.Parser Expression) :=
  [ (fun prev_parser => rightAssociativeBinaryOperatorParser fuel prev_parser
       (createOperatorParser [ operator "**" AST.Exponentiate "exponentiation" ]));
    (fun prev_parser => unaryPreFixParser fuel prev_parser
       (createOperatorParser [ operator "-" AST.Negate "negate" ]));
    (fun prev_parser => leftAssociativeBinaryOperatorParser prev_parser
       (createOperatorParser [ operator "*" AST.Multiply "multiplication";
                               operator "/" AST.Divide "division";
                               operator "%" AST.Modulo "modulo" ]));
    (fun prev_parser => leftAssociativeBinaryOperatorParser prev_parser
       (createOperatorParser [ operator "+" AST.Addition "addition";
                               operator "-" AST.Subtraction "subtraction" ]));
    (fun prev_parser => leftAssociativeBinaryOperatorParser prev_parser
       (createOperatorParser [ operator "==" AST.Equality "equality";
                               operator "!=" AST.InEquality "inequality";
                               operator "<=" AST.LessThenEq "less than or equal to";
                               operator ">=" AST.GreaterThenEq "greater than or equal to";
                               operator "<" AST.LessThen "less than";
                               operator ">" AST.GreaterThen "greater than" ]));
    (fun prev_parser => unaryPreFixParser fuel prev_parser
       (createOperatorParser [ operator "not" AST.Not "not" ]));
    (fun prev_parser => leftAssociativeBinaryOperatorParser prev_parser
       (createOperatorParser [ operator "and" AST.And "and" ]));
    (fun prev_parser => leftAssociativeBinaryOperatorParser prev_parser
       (createOperatorParser [ operator "or" AST.Or "or" ]));
    (fun prev_parser => condition_parser fuel prev_parser);
    (fun prev_parser => rightAssociativeBinaryOperatorParser fuel prev_parser
       (createOperatorParser [ operator ":=" AST.Assignment "assignement operator" ])) ].

(** [associativity_table.reduce((prev, wrap) => wrap(prev), primary_parser)],
    unfolded [fuel] times. *)
Fixpoint expression_parser (fuel : nat) : P.Parser Expression :=
  match fuel with
  | O => P.abort P.OutOfFuel
  | S fuel' =>
      foldl (fun prev_parser wrap_associativity_layer => wrap_associativity_layer prev_parser)
            (primary_parser (expression_parser fuel'))
            (associativity_table fuel')
  end.

(** [expression_parser.tryParse(input)]: the whole input must be read.
    The grammar is unfolded to a depth that grows with the input; a reply
    other than [OutOfFuel] is the reply at every larger depth
    ([tryParse_reply_is_independent_of_fuel] below). *)
Definition tryParse (input : string) : P.Reply Expression :=
  P.skip (expression_parser (String.length input + 2)) P.eof input.

End Parser.


(** ** Definitions used to state the properties *)


(** A store with the given environment in which no array of the evaluation
    has been allocated yet. *)
Definition initial (environment : AST.Environment) : AST.State :=
  {| AST.environment := environment; AST.next_array := 0 |}.


(** [extends p q]: the parser [q] gives the reply of [p] on every input on
    which [p] does not run out of fuel. *)
Definition extends {A} (p q : Parsimmon.Parser A) : Prop :=
  forall input, p input <> Parsimmon.Aborted Parsimmon.OutOfFuel -> q input = p input.

(** [only_nulls targets env env']: from [env] to [env'] no name outside
    [targets] changed, and a name that changed is now bound to [null]. *)
Definition only_nulls (targets : gset string) (env env' : AST.Environment) : Prop :=
  forall k, (k ∉ targets -> env' !! k = env !! k) /\
            (env' !! k = env !! k \/ env' !! k = Some AST.VNull).



(** The host of the worked examples: an engine whose only function value,
    number 0, is [Math.sqrt], whose [Math.pow] multiplies out non-negative
    integer exponents, and whose conversions between strings and numbers
    cover unsigned decimal text and integers. *)
Fixpoint pow_loop (rounds : nat) (base power : float) : float :=
  match rounds with
  | O => power
  | S rounds' => pow_loop rounds' base (power * base)%float
  end.

Definition example_host : AST.Host :=
  {| AST.Math_pow base exponent :=
       match Num.integer_value exponent with
       | Some z => if (0 <=? z)%Z then pow_loop (Z.to_nat z) base 1 else Num.nan
       | None => Num.nan
       end;
     AST.StringToNumber s :=
       match Parser.number_regex s with
       | Some (digits, EmptyString) => Num.parseFloat digits
       | _ => if String.eqb s EmptyString then 0%float else Num.nan
       end;
     AST.NumberToString n :=
       match Num.integer_value n with
       | Some z => pretty z
       | None => "NaN"
       end;
     AST.FunctionToString _ := "function () { [native code] }";
     AST.call f arguments :=
       match f, arguments with
       | 0%N, AST.VNumber x :: _ => AST.ret (AST.VNumber (PrimFloat.sqrt x))
       | 0%N, _ => AST.ret (AST.VNumber Num.nan)
       | _, _ => AST.throw (AST.HostException AST.VUndefined)
       end |}.

(** A case of [parser.test.ts]: the input, the tree and the value the test
    expects, and the store holding the environment of the case. *)
Record TestCase := {
  input : string;
  expected_ast : AST.Expression;
  expected_resolve : AST.ExpressionResult;
  store : AST.State;
}.

(** The test parses the input, compares the tree, resolves it and compares
    the value. *)
Definition passes (t : TestCase) : Prop :=
  Parser.tryParse (input t) = Parsimmon.Success (expected_ast t) EmptyString /\
  (AST.resolve (H := example_host) (expected_ast t) (store t)).1
    = AST.Return (expected_resolve t).

(** ** Definitions used to state further properties *)









(** The tag of a value, as the checks of [Index], [Slice] and [Apply] see
    it: [Array.isArray], [typeof ... === "number"] and
    [typeof ... === "function"]. *)
Definition is_array (v : AST.ExpressionResult) : bool :=
  match v with AST.VArray _ _ => true | _ => false end.
Definition is_number (v : AST.ExpressionResult) : bool :=
  match v with AST.VNumber _ => true | _ => false end.
Definition is_function (v : AST.ExpressionResult) : bool :=
  match v with AST.VFunction _ => true | _ => false end.

(** The store after an array has been allocated in [st]. *)
Definition allocated (st : AST.State) : AST.State :=
  {| AST.environment := AST.environment st;
     AST.next_array := N.succ (AST.next_array st) |}.

(** The functions of the host do not reuse the identity of an array. *)
Definition host_keeps_identities `{AST.Host} : Prop :=
  forall f arguments st,
    (AST.next_array st <= AST.next_array (AST.call f arguments st).2)%N.

(** [grows m]: running [m] never lowers the identity of the next array. *)
Definition grows {A} (m : AST.Eff AST.State A) : Prop :=
  forall st, (AST.next_array st <= AST.next_array (m st).2)%N.

(** The constructor of a value. *)
Inductive Tag := TNumber | TBoolean | TString | TFunction | TNull | TUndefined | TArray.

Definition tag (v : AST.ExpressionResult) : Tag :=
  match v with
  | AST.VNumber _ => TNumber
  | AST.VBoolean _ => TBoolean
  | AST.VString _ => TString
  | AST.VFunction _ => TFunction
  | AST.VNull => TNull
  | AST.VUndefined => TUndefined
  | AST.VArray _ _ => TArray
  end.

(** [bounded strict n p]: on every input shorter than [n] the parser [p]
    ends without aborting, and the rest it returns is not longer than the
    input; it is shorter when [strict] holds. *)
Definition bounded {A} (strict : bool) (n : nat) (p : Parsimmon.Parser A) : Prop :=
  forall input, String.length input < n ->
    match p input with
    | Parsimmon.Success _ rest =>
        if strict then String.length rest < String.length input
        else String.length rest <= String.length input
    | Parsimmon.Failure => True
    | Parsimmon.Aborted _ => False
    end.

(** The same for a regular expression, which never aborts. *)
Definition re_bounded (strict : bool) (re : Parsimmon.Regexp) : Prop :=
  forall input matched rest, re input = Some (matched, rest) ->
    if strict then String.length rest < String.length input
    else String.length rest <= String.length input.

(** Every character of a string belongs to a class. *)
Fixpoint all_chars (class : ascii -> bool) (s : string) : bool :=
  match s with
  | EmptyString => true
  | String.String c rest => class c && all_chars class rest
  end.

(** The two prefix operators of the grammar, as [associativity_table]
    builds them. *)
Definition negate_operator : Parsimmon.Parser Parser.IUnaryOperator :=
  Parser.createOperatorParser [ Parser.operator "-" AST.Negate "negate" ].
Definition not_operator : Parsimmon.Parser Parser.IUnaryOperator :=
  Parser.createOperatorParser [ Parser.operator "not" AST.Not "not" ].

(** The expression has only nodes of the classes the grammar names: no
    [Factorial], and no node of the base classes [UnaryOperator] and
    [BinaryOperator]. *)
Fixpoint grammar_nodes (e : AST.Expression) : bool :=
  match e with
  | AST.UnaryOperator _ | AST.Factorial _ | AST.BinaryOperator _ _ => false
  | AST.Negate x | AST.Not x => grammar_nodes x
  | AST.And l r | AST.Assignment l r | AST.Or l r
  | AST.Addition l r | AST.Subtraction l r | AST.Equality l r | AST.InEquality l r
  | AST.LessThen l r | AST.GreaterThen l r | AST.LessThenEq l r | AST.GreaterThenEq l r
  | AST.Exponentiate l r | AST.Multiply l r | AST.Divide l r | AST.Modulo l r
  | AST.Index l r => grammar_nodes l && grammar_nodes r
  | AST.Condition c a b | AST.Slice c a b =>
      grammar_nodes c && grammar_nodes a && grammar_nodes b
  | AST.Number _ | AST.Boolean _ | AST.String _ | AST.Variable_ _ => true
  | AST.List l => forallb grammar_nodes l
  | AST.Apply fn args => grammar_nodes fn && forallb grammar_nodes args
  end.

(** What the node constructors of the operator tables preserve. *)
Definition is_node (e : AST.Expression) : Prop := grammar_nodes e = true.
Definition unary_node (c : Parser.IUnaryOperator) : Prop :=
  forall e, is_node e -> is_node (c e).
Definition binary_node (c : Parser.IBinaryOperator) : Prop :=
  forall l r, is_node l -> is_node r -> is_node (c l r).

(** [yields Q p]: every value the parser [p] returns satisfies [Q]. *)
Definition yields {A} (Q : A -> Prop) (p : Parsimmon.Parser A) : Prop :=
  forall input value rest, p input = Parsimmon.Success value rest -> Q value.

(** The predicate on the pair [seq] returns. *)
Definition both {A B} (Q1 : A -> Prop) (Q2 : B -> Prop) (ab : A * B) : Prop :=
  Q1 ab.1 /\ Q2 ab.2.

(** The predicate that holds of every value. *)
Definition any {A} (a : A) : Prop := True.

(** [halts m]: running [m] ends, and not with "Method not implemented." nor
    with "Factorial of ... is not defined". *)
Definition halts {A} (m : AST.Eff AST.State A) : Prop :=
  forall st,
    match (m st).1 with
    | AST.Return _ => True
    | AST.Throw e =>
        e <> AST.MethodNotImplemented /\ forall value, e <> AST.FactorialNotDefined value
    | AST.Diverge => False
    end.

(** The functions of the host return or throw an exception of their own. *)
Definition host_calls_halt `{AST.Host} : Prop :=
  forall f arguments, halts (AST.call f arguments).

(** ** Properties *)

Import AST.
Module P := Parsimmon.

Section Monad.
Context {S A B : Type}.

Lemma bind_return (m : Eff S A) (k : A -> Eff S B) st a st' :
  m st = (Return a, st') -> bind m k st = k a st'.
Proof. unfold bind. by intros ->. Qed.

Lemma bind_throw (m : Eff S A) (k : A -> Eff S B) st e st' :
  m st = (Throw e, st') -> bind m k st = (Throw e, st').
Proof. unfold bind. by intros ->. Qed.

Lemma bind_diverge (m : Eff S A) (k : A -> Eff S B) st st' :
  m st = (Diverge, st') -> bind m k st = (Diverge, st').
Proof. unfold bind. by intros ->. Qed.

End Monad.

(** *** The grammar and its fuel

    Running out of fuel is never mistaken for a failure to parse: it ends
    the whole parse.  Hence a reply that is not [OutOfFuel] does not depend
    on the amount of fuel. *)

Section Extends.
Context {A B : Type}.

Lemma extends_refl (p : P.Parser A) : extends p p.
Proof. by intros input _. Qed.

Lemma extends_abort (q : P.Parser A) : extends (P.abort P.OutOfFuel) q.
Proof. by intros input []. Qed.

Lemma extends_chain (p p' : P.Parser A) (f f' : A -> P.Parser B) :
  extends p p' -> (forall a, extends (f a) (f' a)) ->
  extends (P.chain p f) (P.chain p' f').
Proof.
  intros Hp Hf input. unfold P.chain. specialize (Hp input).
  destruct (p input) as [a rest | | why] eqn:E.
  - rewrite Hp by done. apply Hf.
  - by rewrite Hp.
  - intros Hwhy. rewrite Hp; [done |]. congruence.
Qed.

Lemma extends_or (p p' q q' : P.Parser A) :
  extends p p' -> extends q q' -> extends (P.or p q) (P.or p' q').
Proof.
  intros Hp Hq input. unfold P.or. specialize (Hp input).
  destruct (p input) as [a rest | | why] eqn:E.
  - by rewrite Hp.
  - rewrite Hp by done. apply Hq.
  - intros Hwhy. by rewrite Hp.
Qed.

Lemma extends_alt (ps qs : list (P.Parser A)) :
  Forall2 extends ps qs -> extends (P.alt ps) (P.alt qs).
Proof.
  induction 1; [apply extends_refl |]. by apply extends_or.
Qed.

Lemma extends_many_loop (p p' : P.Parser A) (rounds : nat) :
  extends p p' ->
  forall input, P.many_loop rounds p input <> P.Aborted P.OutOfFuel ->
                P.many_loop rounds p' input = P.many_loop rounds p input.
Proof.
  intros Hp. induction rounds as [| rounds IH]; intros input; cbn [P.many_loop];
    specialize (Hp input); destruct (p input) as [a rest | | why] eqn:E;
    try (rewrite Hp by done); try done.
  - intros Hwhy. rewrite Hp; [done | congruence].
  - destruct (_ =? _)%nat; [done |]. intros Hrest.
    rewrite IH; [done |]. intros E'. by rewrite E' in Hrest.
  - intros Hwhy. rewrite Hp; [done | congruence].
Qed.

Lemma extends_many (p p' : P.Parser A) : extends p p' -> extends (P.many p) (P.many p').
Proof. intros Hp input. by apply extends_many_loop. Qed.

End Extends.

Create HintDb extends.

#[local] Hint Resolve extends_refl extends_abort extends_chain extends_or extends_many : extends.

Lemma extends_map {A B} (p p' : P.Parser A) (f : A -> B) :
  extends p p' -> extends (P.map p f) (P.map p' f).
Proof. intros. apply extends_chain; auto with extends. Qed.

Lemma extends_seq {A B} (p p' : P.Parser A) (q q' : P.Parser B) :
  extends p p' -> extends q q' -> extends (P.seq p q) (P.seq p' q').
Proof. intros. repeat (apply extends_chain; auto with extends; intros). Qed.

Lemma extends_trim {A B} (p p' : P.Parser A) (q : P.Parser B) :
  extends p p' -> extends (P.trim p q) (P.trim p' q).
Proof.
  intros. unfold P.trim, P.skip, P.then_, P.result.
  repeat (apply extends_chain; auto with extends; intros).
Qed.

Lemma extends_sepBy {A B} (p p' : P.Parser A) (q : P.Parser B) :
  extends p p' -> extends (P.sepBy p q) (P.sepBy p' q).
Proof.
  intros. unfold P.sepBy, P.sepBy1, P.then_.
  apply extends_or; [| apply extends_refl]. apply extends_map, extends_seq; [done |].
  apply extends_many, extends_chain; auto with extends.
Qed.

#[local] Hint Resolve extends_map extends_seq extends_trim extends_sepBy : extends.

Lemma extends_parens_parser (e e' : P.Parser Expression) :
  extends e e' -> extends (Parser.parens_parser e) (Parser.parens_parser e').
Proof.
  intros He. apply extends_map, extends_seq; [apply extends_refl |].
  apply extends_seq; [done | apply extends_refl].
Qed.

Lemma extends_primary_parser (e e' : P.Parser Expression) :
  extends e e' -> extends (Parser.primary_parser e) (Parser.primary_parser e').
Proof.
  intros He. pose proof (extends_parens_parser e e' He) as Hparens.
  assert (extends (P.or Parser.variable_parser (Parser.parens_parser e))
                  (P.or Parser.variable_parser (Parser.parens_parser e'))) as Hhead
    by (apply extends_or; [apply extends_refl | done]).
  assert (extends (P.trim e P.optWhitespace) (P.trim e' P.optWhitespace)) as Htrim
    by by apply extends_trim.
  apply extends_alt.
  repeat match goal with |- Forall2 _ _ _ => constructor end.
  - apply extends_refl.
  - apply extends_refl.
  - apply extends_refl.
  - apply extends_map, extends_seq; [apply extends_refl |].
    apply extends_seq; [| apply extends_refl]. by apply extends_map, extends_sepBy.
  - apply extends_map, extends_seq; [exact Hhead |]. apply extends_seq; [apply extends_refl |].
    apply extends_seq; [| apply extends_refl]. by apply extends_trim, extends_sepBy.
  - apply extends_map, extends_seq; [exact Hhead |]. apply extends_seq; [apply extends_refl |].
    apply extends_seq; [exact Htrim | apply extends_refl].
  - apply extends_map, extends_seq; [exact Hhead |]. apply extends_seq; [apply extends_refl |].
    apply extends_seq; [exact Htrim |]. apply extends_seq; [apply extends_refl |].
    apply extends_seq; [exact Htrim | apply extends_refl].
  - exact Hparens.
  - apply extends_refl.
Qed.

Lemma extends_unaryPreFixParser fuel fuel' prev prev' op :
  fuel <= fuel' -> extends prev prev' ->
  extends (Parser.unaryPreFixParser fuel prev op) (Parser.unaryPreFixParser fuel' prev' op).
Proof.
  intros Hle Hprev. revert fuel' Hle.
  induction fuel as [| fuel IH]; intros fuel' Hle; [apply extends_abort |].
  destruct fuel' as [| fuel']; [lia |]. cbn [Parser.unaryPreFixParser].
  apply extends_or; [| done]. apply extends_map, extends_seq; [apply extends_refl |].
  apply IH. lia.
Qed.

Lemma extends_rightAssociativeBinaryOperatorParser fuel fuel' prev prev' op :
  fuel <= fuel' -> extends prev prev' ->
  extends (Parser.rightAssociativeBinaryOperatorParser fuel prev op)
          (Parser.rightAssociativeBinaryOperatorParser fuel' prev' op).
Proof.
  intros Hle Hprev. revert fuel' Hle.
  induction fuel as [| fuel IH]; intros fuel' Hle; [apply extends_abort |].
  destruct fuel' as [| fuel']; [lia |]. cbn [Parser.rightAssociativeBinaryOperatorParser].
  apply extends_chain; [done |]. intros left_expression.
  apply extends_or; [| apply extends_refl].
  apply extends_map, extends_seq; [apply extends_refl |]. apply IH. lia.
Qed.

Lemma extends_condition_parser fuel fuel' prev prev' :
  fuel <= fuel' -> extends prev prev' ->
  extends (Parser.condition_parser fuel prev) (Parser.condition_parser fuel' prev').
Proof.
  intros Hle Hprev. revert fuel' Hle.
  induction fuel as [| fuel IH]; intros fuel' Hle; [apply extends_abort |].
  destruct fuel' as [| fuel']; [lia |]. cbn [Parser.condition_parser].
  apply extends_chain; [done |]. intros a.
  apply extends_or; [| apply extends_refl].
  apply extends_map. repeat (apply extends_seq; [by auto with extends |]).
  apply IH. lia.
Qed.

Lemma extends_leftAssociativeBinaryOperatorParser prev prev' op :
  extends prev prev' ->
  extends (Parser.leftAssociativeBinaryOperatorParser prev op)
          (Parser.leftAssociativeBinaryOperatorParser prev' op).
Proof.
  intros. unfold Parser.leftAssociativeBinaryOperatorParser.
  apply extends_map, extends_seq; [done |]. apply extends_many, extends_seq; auto with extends.
Qed.

Lemma extends_expression_parser fuel fuel' :
  fuel <= fuel' -> extends (Parser.expression_parser fuel) (Parser.expression_parser fuel').
Proof.
  revert fuel'. induction fuel as [| fuel IH]; intros fuel' Hle; [apply extends_abort |].
  destruct fuel' as [| fuel']; [lia |]. cbn [Parser.expression_parser].
  assert (fuel <= fuel') as Hle' by lia.
  pose proof (extends_primary_parser _ _ (IH fuel' Hle')) as Hprimary.
  unfold Parser.associativity_table. cbn [foldl].
  repeat first
    [ apply extends_rightAssociativeBinaryOperatorParser; [done |]
    | apply extends_unaryPreFixParser; [done |]
    | apply extends_condition_parser; [done |]
    | apply extends_leftAssociativeBinaryOperatorParser ].
  done.
Qed.

(** A reply of [tryParse] other than running out of fuel is the reply for
    every larger amount of fuel. *)
Lemma tryParse_reply_is_independent_of_fuel (input : string) (fuel : nat) :
  String.length input + 2 <= fuel ->
  Parser.tryParse input <> P.Aborted P.OutOfFuel ->
  P.skip (Parser.expression_parser fuel) P.eof input = Parser.tryParse input.
Proof.
  intros Hle Hreply. unfold Parser.tryParse in *.
  refine (extends_chain _ _ _ _ _ _ input Hreply); [| intros; apply extends_refl].
  by apply extends_expression_parser.
Qed.

(** *** Logical operators *)

(** C1 (as amended).  [And] and [Or] resolve their left operand first and
    their right operand only when the left value does not decide the
    result: [Or] returns a truthy left value and [And] a falsy left value
    without resolving the right operand; otherwise the node resolves the
    right operand, in the store the left operand left, and returns its
    outcome. *)
Theorem or_and_resolve_right_operand_on_demand `{Host}
    (l r : Expression) (st st' : State) (v : ExpressionResult) :
  resolve l st = (Return v, st') ->
  resolve (Or l r) st = (if ToBoolean v then (Return v, st') else resolve r st') /\
  resolve (And l r) st = (if ToBoolean v then resolve r st' else (Return v, st')).
Proof.
  intros Hl. cbn [resolve]. rewrite !(bind_return _ _ _ _ _ Hl).
  by destruct (ToBoolean v).
Qed.

Lemma or_and_resolve_right_operand_on_demand_witness :
  resolve (H := example_host) (Boolean true) (initial ∅)
    = (Return (VBoolean true), initial ∅) /\
  (resolve (H := example_host) (Or (Boolean true) (Variable_ "a")) (initial ∅)
     = (Return (VBoolean true), initial ∅) /\
   resolve (H := example_host) (And (Boolean true) (Variable_ "a")) (initial ∅)
     = (Throw (VariableNotDefined "a"), initial ∅)).
Proof.
  split; [reflexivity |].
  exact (or_and_resolve_right_operand_on_demand (H := example_host)
           (Boolean true) (Variable_ "a") (initial ∅) (initial ∅) (VBoolean true)
           eq_refl).
Defined.

(** C1 (as stated) fails: the left operand of this [Or] resolves to [True],
    resolving its right operand throws, and the node returns [True]. *)
Lemma or_with_true_left_ignores_failing_right :
  resolve (H := example_host) (Boolean true) (initial ∅)
    = (Return (VBoolean true), initial ∅) /\
  resolve (H := example_host) (Variable_ "a") (initial ∅)
    = (Throw (VariableNotDefined "a"), initial ∅) /\
  resolve (H := example_host) (Or (Boolean true) (Variable_ "a")) (initial ∅)
    = (Return (VBoolean true), initial ∅).
Proof. repeat split. Qed.

(** *** Equality *)

(** C2.  [InEquality.resolve] returns what [Equality.resolve] returns on the
    same operands and store: the result of [===], not its negation; so
    [1 != 1] is [true] and [1 != 2] is [false]. *)
Theorem inequality_resolves_as_equality `{Host} (l r : Expression) (st : State) :
  resolve (InEquality l r) st = resolve (Equality l r) st /\
  resolve (InEquality (Number 1) (Number 1)) st = (Return (VBoolean true), st) /\
  resolve (InEquality (Number 1) (Number 2)) st = (Return (VBoolean false), st).
Proof. repeat split. Qed.

(** *** Conditional *)

(** C6.  [Condition] resolves its condition and then only the branch the
    condition selects, in the store the condition left; the other branch is
    not resolved, so it cannot make the node fail. *)
Theorem condition_resolves_only_taken_branch `{Host}
    (c a b : Expression) (st st' : State) (v : ExpressionResult) :
  resolve c st = (Return v, st') ->
  resolve (Condition c a b) st = (if ToBoolean v then resolve a st' else resolve b st').
Proof.
  intros Hc. cbn [resolve]. rewrite (bind_return _ _ _ _ _ Hc).
  by destruct (ToBoolean v).
Qed.

Lemma condition_resolves_only_taken_branch_witness :
  resolve (H := example_host) (Boolean true) (initial ∅)
    = (Return (VBoolean true), initial ∅) /\
  resolve (H := example_host) (Variable_ "missing") (initial ∅)
    = (Throw (VariableNotDefined "missing"), initial ∅) /\
  resolve (H := example_host)
    (Condition (Boolean true) (Number 1) (Variable_ "missing")) (initial ∅)
    = (Return (VNumber 1), initial ∅).
Proof.
  split; [reflexivity |]. split; [reflexivity |].
  exact (condition_resolves_only_taken_branch (H := example_host)
           (Boolean true) (Number 1) (Variable_ "missing") (initial ∅) (initial ∅)
           (VBoolean true) eq_refl).
Defined.

(** *** Assignment *)

(** C7.  The text [1 := 2] parses, to an [Assignment] whose left operand is
    a number; and an [Assignment] whose left operand is not a [Variable]
    throws "Left side of assignment must be a variable" when resolved,
    before anything else happens: the store is the one it was given. *)
Theorem assignment_to_non_variable_throws :
  Parser.tryParse "1 := 2" = P.Success (Assignment (Number 1) (Number 2)) EmptyString /\
  forall `{Host} (l r : Expression) (st : State),
    (forall x, l <> Variable_ x) ->
    resolve (Assignment l r) st = (Throw LeftSideMustBeVariable, st).
Proof.
  split; [by vm_compute |].
  intros H l r st Hl. destruct l; try reflexivity. by destruct (Hl variable).
Qed.

Lemma assignment_to_non_variable_throws_witness :
  (forall x, Number 1 <> Variable_ x) /\
  resolve (H := example_host) (Assignment (Number 1) (Number 2)) (initial ∅)
    = (Throw LeftSideMustBeVariable, initial ∅).
Proof.
  split; [discriminate |].
  apply (proj2 assignment_to_non_variable_throws example_host). discriminate.
Defined.





(** *** Operators and the tags of their operands *)

Lemma resolve_binary `{Host} (op : ExpressionResult -> ExpressionResult -> ExpressionResult)
    (l r : Expression) (st st1 st2 : State) (v1 v2 : ExpressionResult) :
  resolve l st = (Return v1, st1) ->
  resolve r st1 = (Return v2, st2) ->
  binary op (resolve l) (resolve r) st = (Return (op v1 v2), st2).
Proof.
  intros Hl Hr. unfold binary.
  by rewrite (bind_return _ _ _ _ _ Hl), (bind_return _ _ _ _ _ Hr).
Qed.




(** *** Free variables *)
















(** *** Exponentiation *)

(** C9.  The text [4 ** 3 ** 2] parses with the second [**] nested in the
    right operand of the first, and the tree resolves to
    [Math.pow(4, Math.pow(3, 2))]: to 262144 on a host whose [Math.pow] is
    exact on these two integer powers. *)
Theorem exponentiation_nests_to_the_right :
  Parser.tryParse "4 ** 3 ** 2"
    = P.Success (Exponentiate (Number 4) (Exponentiate (Number 3) (Number 2)))
                EmptyString /\
  forall `{Host} (st : State),
    resolve (Exponentiate (Number 4) (Exponentiate (Number 3) (Number 2))) st
      = (Return (VNumber (Math_pow 4 (Math_pow 3 2))), st) /\
    (Math_pow 3 2 = 9%float ->
     Math_pow 4 9 = 262144%float ->
     resolve (Exponentiate (Number 4) (Exponentiate (Number 3) (Number 2))) st
       = (Return (VNumber 262144), st)).
Proof.
  split; [by vm_compute |]. intros H st. split; [reflexivity |].
  intros H32 H49. cbn. unfold bind, ret, numeric, ToNumber. cbn. by rewrite H32, H49.
Qed.

Lemma exponentiation_nests_to_the_right_witness :
  Math_pow (Host := example_host) 3 2 = 9%float /\
  Math_pow (Host := example_host) 4 9 = 262144%float /\
  resolve (H := example_host)
    (Exponentiate (Number 4) (Exponentiate (Number 3) (Number 2))) (initial ∅)
    = (Return (VNumber 262144), initial ∅).
Proof.
  split; [reflexivity |]. split; [reflexivity |].
  exact (proj2 (proj2 exponentiation_nests_to_the_right example_host (initial ∅))
           eq_refl eq_refl).
Defined.

(** *** Indexing *)

(** C10.  An [Index] node whose left operand resolves to an array and whose
    index resolves to a number returns [undefined], without throwing, when
    the number is not the position of an element: it is negative, or at
    least the length of the array, or not an integer, or the position holds
    no element. *)
Theorem index_outside_the_list_returns_undefined `{Host}
    (l i : Expression) (st st1 st2 : State)
    (id : N) (elements : list ExpressionResult) (n : float) :
  resolve l st = (Return (VArray id elements), st1) ->
  resolve i st1 = (Return (VNumber n), st2) ->
  (forall z, Num.integer_value n = Some z ->
     (z < 0)%Z \/ (Z.of_nat (length elements) <= z)%Z \/
     elements !! Z.to_nat z = Some VUndefined) ->
  resolve (Index l i) st = (Return VUndefined, st2).
Proof.
  intros Hl Hi Hout. cbn [resolve].
  rewrite (bind_return _ _ _ _ _ Hl), (bind_return _ _ _ _ _ Hi).
  unfold ret, array_get. destruct (Num.integer_value n) as [z |]; [| done].
  destruct (Hout z eq_refl) as [Hneg | [Hbig | Hhole]].
  - by rewrite (proj2 (Z.leb_gt 0 z)).
  - destruct (0 <=? z)%Z; [| done].
    rewrite lookup_ge_None_2; [done | lia].
  - rewrite Hhole. by destruct (0 <=? z)%Z.
Qed.

Lemma index_outside_the_list_returns_undefined_witness :
  resolve (H := example_host) (List [Number 1; Number 2; Number 3]) (initial ∅)
    = (Return (VArray 0 [VNumber 1; VNumber 2; VNumber 3]),
       {| environment := ∅; next_array := 1 |}) /\
  resolve (H := example_host) (Negate (Number 1)) {| environment := ∅; next_array := 1 |}
    = (Return (VNumber (-1)), {| environment := ∅; next_array := 1 |}) /\
  resolve (H := example_host)
    (Index (List [Number 1; Number 2; Number 3]) (Negate (Number 1))) (initial ∅)
    = (Return VUndefined, {| environment := ∅; next_array := 1 |}).
Proof.
  split; [reflexivity |]. split; [reflexivity |].
  refine (index_outside_the_list_returns_undefined (H := example_host)
            (List [Number 1; Number 2; Number 3]) (Negate (Number 1))
            (initial ∅) {| environment := ∅; next_array := 1 |}
            {| environment := ∅; next_array := 1 |}
            0%N [VNumber 1; VNumber 2; VNumber 3] (-1)%float eq_refl eq_refl _).
  intros z Hz. vm_compute in Hz. injection Hz as <-. left. reflexivity.
Defined.

(** *** The cases of the test suite

    The model agrees with [parser.test.ts] on every case of its table.  The
    arrays of the environments have identities 0 and 1, and the arrays of
    the evaluation are numbered from 2. *)

Example parser_test_cases :
  let case input ast value env :=
    {| input := input; expected_ast := ast; expected_resolve := value;
       store := {| environment := env; next_array := 2 |} |} in
  let a123 : Environment := {[ "a" := VArray 0 [VNumber 1; VNumber 2; VNumber 3] ]} in
  Forall passes
    [ case "True" (Boolean true) (VBoolean true) ∅;
      case "False" (Boolean false) (VBoolean false) ∅;
      case "True == True" (Equality (Boolean true) (Boolean true)) (VBoolean true) ∅;
      case "True == False" (Equality (Boolean true) (Boolean false)) (VBoolean false) ∅;
      case "False == False" (Equality (Boolean false) (Boolean false)) (VBoolean true) ∅;
      case "False == True" (Equality (Boolean false) (Boolean true)) (VBoolean false) ∅;
      case "True == True and False == False"
        (And (Equality (Boolean true) (Boolean true))
             (Equality (Boolean false) (Boolean false)))
        (VBoolean true) ∅;
      case "True == True and False == False and 0 == 0"
        (And (And (Equality (Boolean true) (Boolean true))
                  (Equality (Boolean false) (Boolean false)))
             (Equality (Number 0) (Number 0)))
        (VBoolean true) ∅;
      case "1 + 2 - 3 * 3"
        (Subtraction (Addition (Number 1) (Number 2)) (Multiply (Number 3) (Number 3)))
        (VNumber (-6)) ∅;
      case "1 + (2 - 3) * 3"
        (Addition (Number 1) (Multiply (Subtraction (Number 2) (Number 3)) (Number 3)))
        (VNumber (-2)) ∅;
      case "TrueandTrue" (And (Boolean true) (Boolean true)) (VBoolean true) ∅;
      case "10 * 10 == 100 or True"
        (Or (Equality (Multiply (Number 10) (Number 10)) (Number 100)) (Boolean true))
        (VBoolean true) ∅;
      case "4 ** 3 ** 2"
        (Exponentiate (Number 4) (Exponentiate (Number 3) (Number 2)))
        (VNumber 262144) ∅;
      case "1 + 1 * 1 ** 2"
        (Addition (Number 1) (Multiply (Number 1) (Exponentiate (Number 1) (Number 2))))
        (VNumber 2) ∅;
      case "1 if True else 0" (Condition (Boolean true) (Number 1) (Number 0)) (VNumber 1) ∅;
      case "a" (Variable_ "a") (VBoolean true) {[ "a" := VBoolean true ]};
      case "a[0]" (Index (Variable_ "a") (Number 0)) (VNumber 1) a123;
      case "1 if False else 2 if True else 3"
        (Condition (Boolean false) (Number 1)
                   (Condition (Boolean true) (Number 2) (Number 3)))
        (VNumber 2) ∅;
      case "(a if True else b)[1]"
        (Index (Condition (Boolean true) (Variable_ "a") (Variable_ "b")) (Number 1))
        (VNumber 2)
        (<[ "b" := VArray 1 [VNumber 4; VNumber 5; VNumber 6] ]> a123);
      case "a[0 : 2]" (Slice (Variable_ "a") (Number 0) (Number 2))
        (VArray 2 [VNumber 1; VNumber 2]) a123;
      case "[1, 2, 3]" (List [Number 1; Number 2; Number 3])
        (VArray 2 [VNumber 1; VNumber 2; VNumber 3]) a123;
      case "[True, False, True]" (List [Boolean true; Boolean false; Boolean true])
        (VArray 2 [VBoolean true; VBoolean false; VBoolean true]) ∅;
      case "([1, 2 + 2])[1]"
        (Index (List [Number 1; Addition (Number 2) (Number 2)]) (Number 1))
        (VNumber 4) ∅;
      case "not True" (Not (Boolean true)) (VBoolean false) ∅;
      case "not (True or False)" (Not (Or (Boolean true) (Boolean false)))
        (VBoolean false) ∅;
      case "math.sqrt(9)" (Apply (Variable_ "math.sqrt") [Number 9]) (VNumber 3)
        {[ "math.sqrt" := VFunction 0 ]};
      case "(x := 1) + x"
        (Addition (Assignment (Variable_ "x") (Number 1)) (Variable_ "x"))
        (VNumber 2) ∅ ].
Proof. cbv zeta. repeat (constructor; [by vm_compute |]). constructor. Qed.

(** ** Further properties *)

(** *** What [freeVariables] returns *)

Lemma bind_Return_inv {S A B} (m : Eff S A) (k : A -> Eff S B) st b st' :
  bind m k st = (Return b, st') ->
  exists a st1, m st = (Return a, st1) /\ k a st1 = (Return b, st').
Proof. unfold bind. destruct (m st) as [[a | e |] st1]; [eauto | done | done]. Qed.


Lemma only_nulls_empty env env' : only_nulls ∅ env env' -> env' = env.
Proof. intros Hn. apply map_eq. intros k. apply Hn. set_solver. Qed.













(** *** When [freeVariables] throws *)








(** *** What [resolve] writes *)

Section Keeps.
Context `{Host}.











End Keeps.



(** *** Free variables and undefined-variable errors *)

Section Quiet.
Context `{Host}.
Variable env : Environment.
Hypothesis env_defined : forall k, env !! k <> Some VUndefined.










End Quiet.



(** *** A variable bound to [undefined] *)



(** *** Indexing, slicing and calling *)

(** X6.  [Index], [Slice] and [Apply] check the tag of each operand as soon
    as it is resolved and throw before resolving the next one: a left
    operand that is not an array ("Trying to index ... which is not an
    array") or not a function ("Trying to call ... which is not a
    function"), and an index or a bound that is not a number. *)
Theorem index_slice_apply_check_tags `{Host}
    (l : Expression) (st st1 : State) (v : ExpressionResult) :
  resolve l st = (Return v, st1) ->
  (is_array v = false ->
   forall i f t,
     resolve (Index l i) st = (Throw (NotAnArray v), st1) /\
     resolve (Slice l f t) st = (Throw (NotAnArray v), st1)) /\
  (is_function v = false ->
   forall args, resolve (Apply l args) st = (Throw (NotAFunction v), st1)) /\
  (is_array v = true ->
   forall i w st2,
     resolve i st1 = (Return w, st2) -> is_number w = false ->
     resolve (Index l i) st = (Throw (IndexNotANumber w), st2) /\
     (forall t, resolve (Slice l i t) st = (Throw (FromIndexNotANumber w), st2)) /\
     (forall f n st0,
        resolve f st1 = (Return (VNumber n), st0) -> resolve i st0 = (Return w, st2) ->
        resolve (Slice l f i) st = (Throw (ToIndexNotANumber w), st2))).
Proof.
  intros Hl. repeat apply conj.
  - intros Hv i f t. cbn [resolve]. rewrite !(bind_return _ _ _ _ _ Hl).
    by destruct v.
  - intros Hv args. cbn [resolve]. rewrite (bind_return _ _ _ _ _ Hl). by destruct v.
  - intros Hv i w st2 Hi Hw. destruct v; try discriminate Hv. repeat apply conj.
    + cbn [resolve]. rewrite (bind_return _ _ _ _ _ Hl), (bind_return _ _ _ _ _ Hi).
      by destruct w.
    + intros t. cbn [resolve].
      rewrite (bind_return _ _ _ _ _ Hl), (bind_return _ _ _ _ _ Hi). by destruct w.
    + intros f n st0 Hf Hi'. cbn [resolve].
      rewrite (bind_return _ _ _ _ _ Hl), (bind_return _ _ _ _ _ Hf),
        (bind_return _ _ _ _ _ Hi').
      by destruct w.
Qed.

Lemma index_slice_apply_check_tags_witness :
  resolve (H := example_host) (Number 1) (initial ∅) = (Return (VNumber 1), initial ∅) /\
  is_array (VNumber 1) = false /\
  resolve (H := example_host) (Index (Number 1) (Variable_ "missing")) (initial ∅)
    = (Throw (NotAnArray (VNumber 1)), initial ∅).
Proof.
  split; [reflexivity |]. split; [reflexivity |].
  exact (proj1 (proj1 (index_slice_apply_check_tags (H := example_host)
                         (Number 1) (initial ∅) (initial ∅) (VNumber 1) eq_refl)
                  eq_refl (Variable_ "missing") (Number 0) (Number 0))).
Defined.

Lemma array_slice_infix (elements : list ExpressionResult) (from_index to_index : float) :
  exists before after,
    elements = before ++ array_slice elements from_index to_index ++ after.
Proof.
  unfold array_slice.
  set (k := Z.to_nat _). set (n := Z.to_nat _).
  exists (take n elements), (drop k (drop n elements)).
  by rewrite take_drop, take_drop.
Qed.

Lemma integer_value_ToIntegerOrInfinity (x : float) (z : Z) :
  Num.integer_value x = Some z -> Num.ToIntegerOrInfinity x = Num.Fin z.
Proof.
  unfold Num.integer_value, Num.ToIntegerOrInfinity.
  destruct (Prim2SF x) as [s | s | | s m e]; try discriminate.
  - by intros [= <-].
  - destruct (0 <=? e)%Z.
    + destruct s; by intros [= <-].
    + destruct (_ =? _)%Z; [| discriminate]. destruct s; by intros [= <-].
Qed.

Lemma array_slice_between (elements : list ExpressionResult)
    (from_index to_index : float) (i j : Z) :
  Num.integer_value from_index = Some i ->
  Num.integer_value to_index = Some j ->
  (0 <= i <= j)%Z -> (j <= Z.of_nat (length elements))%Z ->
  array_slice elements from_index to_index
    = take (Z.to_nat (j - i)) (drop (Z.to_nat i) elements).
Proof.
  intros Hi Hj Hij Hlen. unfold array_slice, clamp_bound.
  rewrite (integer_value_ToIntegerOrInfinity _ _ Hi),
    (integer_value_ToIntegerOrInfinity _ _ Hj).
  rewrite (proj2 (Z.ltb_ge i 0)), (proj2 (Z.ltb_ge j 0)) by lia.
  by rewrite !Z.min_l by lia.
Qed.

(** X7.  [Slice] never fails on a numeric bound: whatever numbers the two
    bounds resolve to (negative, beyond the end, NaN or infinite), the node
    returns a newly allocated array whose elements are consecutive elements
    of the list, in the same order.  For integer bounds [i <= j] within the
    list these are the [j - i] elements from position [i] on. *)
Theorem slice_returns_consecutive_elements `{Host}
    (l f t : Expression) (st st1 st2 st3 : State)
    (id : N) (elements : list ExpressionResult) (from_index to_index : float) :
  resolve l st = (Return (VArray id elements), st1) ->
  resolve f st1 = (Return (VNumber from_index), st2) ->
  resolve t st2 = (Return (VNumber to_index), st3) ->
  exists slice before after,
    resolve (Slice l f t) st = (Return (VArray (next_array st3) slice), allocated st3) /\
    elements = before ++ slice ++ after /\
    (forall i j : Z,
       Num.integer_value from_index = Some i ->
       Num.integer_value to_index = Some j ->
       (0 <= i <= j)%Z -> (j <= Z.of_nat (length elements))%Z ->
       Z.of_nat (length slice) = (j - i)%Z /\
       forall k : nat, (Z.of_nat k < j - i)%Z ->
                       slice !! k = elements !! (Z.to_nat i + k)%nat).
Proof.
  intros Hl Hf Ht. destruct (array_slice_infix elements from_index to_index)
    as (before & after & Hinfix).
  exists (array_slice elements from_index to_index), before, after.
  split; [| split; [done |]].
  - cbn [resolve].
    by rewrite (bind_return _ _ _ _ _ Hl), (bind_return _ _ _ _ _ Hf),
      (bind_return _ _ _ _ _ Ht).
  - intros i j Hi Hj Hij Hlen. rewrite (array_slice_between _ _ _ i j) by done. split.
    + rewrite length_take, length_drop. lia.
    + intros k Hk. rewrite lookup_take_lt by lia. by rewrite lookup_drop.
Qed.

Lemma slice_returns_consecutive_elements_witness :
  exists slice before after,
    resolve (H := example_host) (Slice (Variable_ "a") (Number 1) (Number 9))
      {| environment := {[ "a" := VArray 0 [VNumber 1; VNumber 2; VNumber 3] ]};
         next_array := 1 |}
    = (Return (VArray 1 slice),
       {| environment := {[ "a" := VArray 0 [VNumber 1; VNumber 2; VNumber 3] ]};
          next_array := 2 |}) /\
    [VNumber 1; VNumber 2; VNumber 3] = before ++ slice ++ after.
Proof.
  pose (st := {| environment := {[ "a" := VArray 0 [VNumber 1; VNumber 2; VNumber 3] ]};
                 next_array := 1 |}).
  destruct (slice_returns_consecutive_elements (H := example_host)
              (Variable_ "a") (Number 1) (Number 9) st st st st
              0%N [VNumber 1; VNumber 2; VNumber 3] 1%float 9%float
              eq_refl eq_refl eq_refl)
    as (slice & before & after & Hslice & Hinfix & _).
  by exists slice, before, after.
Defined.

(** *** List literals *)

Lemma map_in_order_length {S A B} (f : A -> Eff S B) l :
  forall st values st', map_in_order f l st = (Return values, st') ->
                        length values = length l.
Proof.
  induction l as [| a l IH]; intros st values st' Hrun; cbn in Hrun.
  - by injection Hrun as <- <-.
  - apply bind_Return_inv in Hrun as (b & st1 & Hb & Hrun).
    apply bind_Return_inv in Hrun as (bs & st2 & Hbs & Hrun).
    injection Hrun as <- <-. cbn. f_equal. by eapply IH.
Qed.

Lemma map_in_order_throw {S A B} (f : A -> Eff S B) before a after :
  forall st values st1 e st2,
    map_in_order f before st = (Return values, st1) ->
    f a st1 = (Throw e, st2) ->
    map_in_order f (before ++ a :: after) st = (Throw e, st2).
Proof.
  induction before as [| b before IH]; intros st values st1 e st2 Hbefore Ha; cbn in *.
  - injection Hbefore as <- <-. by rewrite (bind_throw _ _ _ _ _ Ha).
  - apply bind_Return_inv in Hbefore as (v & st0 & Hv & Hbefore).
    apply bind_Return_inv in Hbefore as (vs & st0' & Hvs & Hbefore).
    injection Hbefore as <- <-. rewrite (bind_return _ _ _ _ _ Hv).
    by rewrite (bind_throw _ _ _ _ _ (IH _ _ _ _ _ Hvs Ha)).
Qed.

(** X8.  A [List] node resolves its elements in order, each in the store
    its predecessor left.  When all of them return, the node returns a
    newly allocated array with one value per element, and indexing the
    literal with an integer inside it gives the value of the element at that
    position; when an element throws, the node throws the same error and
    the elements after it are not resolved. *)
Theorem list_resolves_elements_in_order `{Host} :
  (forall (l : list Expression) (st st' : State) (values : list ExpressionResult),
     map_in_order resolve l st = (Return values, st') ->
     resolve (List l) st = (Return (VArray (next_array st') values), allocated st') /\
     length values = length l /\
     forall (i : Expression) (st2 : State) (n : float) (z : Z) (v : ExpressionResult),
       resolve i (allocated st') = (Return (VNumber n), st2) ->
       Num.integer_value n = Some z -> (0 <= z)%Z ->
       values !! Z.to_nat z = Some v ->
       resolve (Index (List l) i) st = (Return v, st2)) /\
  (forall (before after : list Expression) (e : Expression) (st st1 st2 : State)
          (values : list ExpressionResult) (err : Error),
     map_in_order resolve before st = (Return values, st1) ->
     resolve e st1 = (Throw err, st2) ->
     resolve (List (before ++ e :: after)) st = (Throw err, st2)).
Proof.
  split.
  - intros l st st' values Hrun.
    assert (resolve (List l) st = (Return (VArray (next_array st') values), allocated st'))
      as Hlist by (cbn [resolve]; by rewrite (bind_return _ _ _ _ _ Hrun)).
    split; [done |]. split; [by eapply map_in_order_length |].
    intros i st2 n z v Hi Hz Hpos Hv. cbn [resolve] in *.
    rewrite (bind_return _ _ _ _ _ Hlist), (bind_return _ _ _ _ _ Hi).
    unfold ret, array_get. rewrite Hz, Hv. by rewrite (proj2 (Z.leb_le 0 z)).
  - intros before after e st st1 st2 values err Hbefore He. cbn [resolve].
    by rewrite (bind_throw _ _ _ _ _ (map_in_order_throw _ _ _ _ _ _ _ _ _ Hbefore He)).
Qed.

Lemma list_resolves_elements_in_order_witness :
  map_in_order (resolve (H := example_host)) [Number 1] (initial ∅)
    = (Return [VNumber 1], initial ∅) /\
  resolve (H := example_host) (Variable_ "missing") (initial ∅)
    = (Throw (VariableNotDefined "missing"), initial ∅) /\
  resolve (H := example_host)
    (List ([Number 1] ++ Variable_ "missing" :: [Assignment (Variable_ "x") (Number 2)]))
    (initial ∅)
    = (Throw (VariableNotDefined "missing"), initial ∅).
Proof.
  split; [reflexivity |]. split; [reflexivity |].
  exact (proj2 (list_resolves_elements_in_order (H := example_host))
           [Number 1] [Assignment (Variable_ "x") (Number 2)] (Variable_ "missing")
           (initial ∅) (initial ∅) (initial ∅) [VNumber 1] (VariableNotDefined "missing")
           eq_refl eq_refl).
Defined.

(** *** The identity of arrays *)

Section Grows.
Context `{Host}.
Hypothesis host_ok : host_keeps_identities.

Lemma grows_pure {A} (m : Eff State A) :
  (forall st, (next_array st <= next_array (m st).2)%N) -> grows m.
Proof. done. Qed.

Lemma grows_bind {A B} (m : Eff State A) (k : A -> Eff State B) :
  grows m -> (forall a, grows (k a)) -> grows (bind m k).
Proof.
  intros Hm Hk st. unfold bind. specialize (Hm st).
  destruct (m st) as [[a | e |] st1]; cbn [snd] in *; [| done | done].
  specialize (Hk a st1). lia.
Qed.

Lemma grows_Factorial_resolve v : grows (Factorial_resolve v).
Proof. intros st. unfold Factorial_resolve. repeat case_match; reflexivity. Qed.

Lemma grows_Variable_resolve x : grows (Variable_resolve x).
Proof.
  intros st. unfold Variable_resolve, bind, get_environment.
  repeat case_match; reflexivity.
Qed.

Lemma grows_new_array elements : grows (new_array elements).
Proof. intros st. cbn. lia. Qed.

Lemma grows_map_in_order {A B} (f : A -> Eff State B) l :
  Forall (fun a => grows (f a)) l -> grows (map_in_order f l).
Proof.
  induction 1 as [| a l Ha Hl IH]; cbn [map_in_order]; [by apply grows_pure |].
  apply grows_bind; [done |]. intros b.
  apply grows_bind; [done |]. intros bs. by apply grows_pure.
Qed.

Lemma grows_each l :
  list_all Expression (fun e => grows (resolve e)) l ->
  Forall (fun e => grows (resolve e)) l.
Proof. induction 1; by constructor. Qed.

Ltac grows_step :=
  first
    [ apply grows_bind; [| intros ?]
    | apply grows_Factorial_resolve
    | apply grows_Variable_resolve
    | apply grows_new_array
    | by apply grows_map_in_order, grows_each
    | assumption
    | by apply grows_pure
    | match goal with
      | |- grows (if ?b then _ else _) => destruct b
      | |- grows (match ?v with _ => _ end) => destruct v
      end ].

Lemma resolve_grows (e : Expression) : grows (resolve e).
Proof using All.
  induction e using Expression_ind;
    cbn [resolve binary] in *; repeat grows_step.
Qed.

End Grows.

(** X9.  Two list literals are never equal.  [===] compares arrays by
    identity and every [List] node allocates a new array, so on a host
    whose functions do not reuse identities the [Equality] of two [List]
    nodes is [false] whenever both resolve, whatever their elements; and
    so is their [InEquality]. *)
Theorem list_literals_are_never_equal `{Host}
    (l1 l2 : list Expression) (st st1 st2 : State) (v1 v2 : ExpressionResult) :
  host_keeps_identities ->
  resolve (List l1) st = (Return v1, st1) ->
  resolve (List l2) st1 = (Return v2, st2) ->
  resolve (Equality (List l1) (List l2)) st = (Return (VBoolean false), st2) /\
  resolve (InEquality (List l1) (List l2)) st = (Return (VBoolean false), st2).
Proof.
  intros Hhost H1 H2.
  assert (IsStrictlyEqual v1 v2 = false) as Hne.
  { cbn [resolve] in H1, H2.
    apply bind_Return_inv in H1 as (values1 & s1 & Hvalues1 & H1).
    apply bind_Return_inv in H2 as (values2 & s2 & Hvalues2 & H2).
    injection H1 as <- <-. injection H2 as <- <-. cbn.
    match type of Hvalues2 with
    | map_in_order _ _ ?s = _ =>
        pose proof (grows_map_in_order resolve l2
                      (grows_each _ (list_all_forall _ _ (resolve_grows Hhost) l2)) s)
          as Hgrows
    end.
    rewrite Hvalues2 in Hgrows. cbn in Hgrows. apply N.eqb_neq. lia. }
  split; cbn [resolve]; rewrite (resolve_binary _ _ _ _ _ _ _ _ H1 H2);
    unfold relational; by rewrite Hne.
Qed.

Lemma list_literals_are_never_equal_witness :
  host_keeps_identities (H := example_host) /\
  resolve (H := example_host) (Equality (List [Number 1]) (List [Number 1])) (initial ∅)
    = (Return (VBoolean false), {| environment := ∅; next_array := 2 |}).
Proof.
  assert (host_keeps_identities (H := example_host)) as Hhost.
  { intros f arguments st. cbn. by repeat case_match. }
  split; [exact Hhost |].
  exact (proj1 (list_literals_are_never_equal (H := example_host)
                  [Number 1] [Number 1] (initial ∅)
                  {| environment := ∅; next_array := 1 |}
                  {| environment := ∅; next_array := 2 |}
                  (VArray 0 [VNumber 1]) (VArray 1 [VNumber 1])
                  Hhost eq_refl eq_refl)).
Defined.

(** *** Strict equality *)

(** X10.  [Equality] converts nothing: values of different kinds (a number
    and a string, a boolean and a number, [null] and [undefined], ...) are
    never equal, unlike under the arithmetic operators, which convert their
    operands. *)
Theorem equality_of_different_kinds_is_false `{Host}
    (l r : Expression) (st st1 st2 : State) (v1 v2 : ExpressionResult) :
  resolve l st = (Return v1, st1) ->
  resolve r st1 = (Return v2, st2) ->
  tag v1 <> tag v2 ->
  resolve (Equality l r) st = (Return (VBoolean false), st2).
Proof.
  intros Hl Hr Htag. cbn [resolve]. rewrite (resolve_binary _ _ _ _ _ _ _ _ Hl Hr).
  destruct v1, v2; try reflexivity; by destruct Htag.
Qed.

Lemma equality_of_different_kinds_is_false_witness :
  tag (VNumber 1) <> tag (VString "1") /\
  resolve (H := example_host) (Equality (Number 1) (String "1")) (initial ∅)
    = (Return (VBoolean false), initial ∅) /\
  resolve (H := example_host) (Subtraction (Number 1) (String "1")) (initial ∅)
    = (Return (VNumber 0), initial ∅).
Proof.
  split; [discriminate |]. split; [| reflexivity].
  exact (equality_of_different_kinds_is_false (H := example_host)
           (Number 1) (String "1") (initial ∅) (initial ∅) (initial ∅)
           (VNumber 1) (VString "1") eq_refl eq_refl ltac:(discriminate)).
Defined.

(** *** The parser always ends *)

Lemma bounded_weaken {A} n (p : P.Parser A) : bounded true n p -> bounded false n p.
Proof.
  intros Hp input Hlen. specialize (Hp input Hlen). destruct (p input); [lia | done | done].
Qed.

Lemma bounded_le {A} b m n (p : P.Parser A) : m <= n -> bounded b n p -> bounded b m p.
Proof. intros Hle Hp input Hlen. apply Hp. lia. Qed.

Lemma bounded_zero {A} b (p : P.Parser A) : bounded b 0 p.
Proof. intros input Hlen. lia. Qed.

Lemma bounded_succeed {A} n (a : A) : bounded false n (P.succeed a).
Proof. intros input _. cbn. lia. Qed.

Lemma bounded_chain {A B} b1 b2 n (p : P.Parser A) (f : A -> P.Parser B) :
  bounded b1 n p ->
  (forall a, bounded b2 (if b1 then Nat.pred n else n) (f a)) ->
  bounded (b1 || b2) n (P.chain p f).
Proof.
  intros Hp Hf input Hlen. unfold P.chain. specialize (Hp input Hlen).
  destruct (p input) as [a rest | | why]; [| done | done].
  assert (String.length rest < (if b1 then Nat.pred n else n)) as Hrest
    by (destruct b1; lia).
  specialize (Hf a rest Hrest). destruct (f a rest) as [b rest' | | why]; [| done | done].
  destruct b1, b2; cbn; lia.
Qed.

Lemma bounded_or {A} b n (p q : P.Parser A) :
  bounded b n p -> bounded b n q -> bounded b n (P.or p q).
Proof.
  intros Hp Hq input Hlen. unfold P.or. specialize (Hp input Hlen).
  destruct (p input); [done | by apply Hq | done].
Qed.

Lemma bounded_alt {A} b n (ps : list (P.Parser A)) :
  Forall (bounded b n) ps -> bounded b n (P.alt ps).
Proof. induction 1; [by intros input _ | by apply bounded_or]. Qed.

Lemma bounded_map {A B} b n (p : P.Parser A) (f : A -> B) :
  bounded b n p -> bounded b n (P.map p f).
Proof.
  intros Hp. replace b with (b || false) by (by destruct b).
  apply bounded_chain; [done |]. intros a. apply bounded_succeed.
Qed.

Lemma bounded_many_loop {A} n (p : P.Parser A) :
  bounded true n p ->
  forall rounds input, String.length input < n -> String.length input <= rounds ->
    match P.many_loop rounds p input with
    | P.Success _ rest => String.length rest <= String.length input
    | _ => False
    end.
Proof.
  intros Hp. induction rounds as [| rounds IH]; intros input Hlen Hrounds;
    cbn [P.many_loop]; specialize (Hp input Hlen);
    destruct (p input) as [a rest | | why]; try done; try lia.
  destruct (Nat.eqb_spec (String.length rest) (String.length input)); [lia |].
  specialize (IH rest). destruct (P.many_loop rounds p rest); lia.
Qed.

Lemma bounded_many {A} n (p : P.Parser A) : bounded true n p -> bounded false n (P.many p).
Proof.
  intros Hp input Hlen. unfold P.many.
  pose proof (bounded_many_loop n p Hp (String.length input) input Hlen (le_n _)) as Hloop.
  by destruct (P.many_loop _ p input).
Qed.


Lemma bounded_seq {A B} b1 b2 n (p : P.Parser A) (q : P.Parser B) :
  bounded b1 n p -> bounded b2 (if b1 then Nat.pred n else n) q ->
  bounded (b1 || b2) n (P.seq p q).
Proof.
  intros Hp Hq. apply bounded_chain; [done |]. intros a.
  replace b2 with (b2 || false) by (by destruct b2).
  apply bounded_chain; [done |]. intros b. apply bounded_succeed.
Qed.

(** A sequence that starts with a parser reading at least one character. *)
Lemma bounded_seq_after {A B} n (p : P.Parser A) (q : P.Parser B) :
  bounded true (S n) p -> bounded false n q -> bounded true (S n) (P.seq p q).
Proof. exact (bounded_seq true false (S n) p q). Qed.

Lemma bounded_seq_first {A B} n (p : P.Parser A) (q : P.Parser B) :
  bounded true n p -> bounded false n q -> bounded true n (P.seq p q).
Proof.
  intros Hp Hq. destruct n; [apply bounded_zero |].
  apply bounded_seq_after; [done |]. apply bounded_le with (S n); [lia | done].
Qed.

Lemma bounded_seq_weak {A B} n (p : P.Parser A) (q : P.Parser B) :
  bounded false n p -> bounded false n q -> bounded false n (P.seq p q).
Proof. exact (bounded_seq false false n p q). Qed.

Lemma bounded_seq_then {A B} n (p : P.Parser A) (q : P.Parser B) :
  bounded false n p -> bounded true n q -> bounded true n (P.seq p q).
Proof. exact (bounded_seq false true n p q). Qed.

Lemma bounded_trim {A B} b n (p : P.Parser A) (q : P.Parser B) :
  bounded false n q -> bounded b n p -> bounded b n (P.trim p q).
Proof.
  intros Hq Hp. unfold P.trim, P.skip, P.then_, P.result.
  replace b with ((false || b) || false) by (by destruct b).
  apply bounded_chain.
  - apply bounded_chain; [done |]. by intros _.
  - intros a. apply bounded_map.
    destruct b; cbn; [apply bounded_le with n; [lia | done] | done].
Qed.

Lemma bounded_sepBy {A B} n (p : P.Parser A) (separator : P.Parser B) :
  bounded true n p -> bounded false n separator ->
  bounded false n (P.sepBy p separator).
Proof.
  intros Hp Hsep. unfold P.sepBy, P.sepBy1, P.then_.
  apply bounded_or; [| apply bounded_succeed].
  apply bounded_map, bounded_weaken, bounded_seq_first; [done |].
  apply bounded_many.
  exact (bounded_chain false true n separator (fun _ => p) Hsep (fun _ => Hp)).
Qed.

Lemma take_while_length (class : ascii -> bool) (input : string) :
  String.length (P.take_while class input).1 + String.length (P.take_while class input).2
  = String.length input.
Proof.
  induction input as [| c input IH]; [done |]. cbn.
  destruct (class c); [| done].
  destruct (P.take_while class input) as [matched rest]. cbn in *. lia.
Qed.

Lemma re_bounded_weaken re : re_bounded true re -> re_bounded false re.
Proof. intros Hre input matched rest Hm. specialize (Hre _ _ _ Hm). cbn in *. lia. Qed.

Lemma re_bounded_star class : re_bounded false (P.re_star class).
Proof.
  intros input matched rest [= Hm]. pose proof (take_while_length class input) as Hlen.
  rewrite Hm in Hlen. cbn in *. lia.
Qed.

Lemma re_bounded_plus class : re_bounded true (P.re_plus class).
Proof.
  intros input matched rest. unfold P.re_plus.
  pose proof (take_while_length class input) as Hlen.
  destruct (P.take_while class input) as [[| c m] r]; [done |].
  intros [= <- <-]. cbn in *. lia.
Qed.

Lemma re_bounded_one class : re_bounded true (P.re_one class).
Proof.
  intros [| c input] matched rest; [done |]. cbn.
  destruct (class c); [| done]. intros [= <- <-]. cbn. lia.
Qed.

Lemma re_bounded_seq b1 b2 r1 r2 :
  re_bounded b1 r1 -> re_bounded b2 r2 -> re_bounded (b1 || b2) (P.re_seq r1 r2).
Proof.
  intros H1 H2 input matched rest. unfold P.re_seq.
  destruct (r1 input) as [[m1 rest1] |] eqn:E1; [| done].
  destruct (r2 rest1) as [[m2 rest2] |] eqn:E2; [| done].
  intros [= <- <-]. specialize (H1 _ _ _ E1). specialize (H2 _ _ _ E2).
  destruct b1, b2; cbn in *; lia.
Qed.

Lemma re_bounded_seq_l r1 r2 :
  re_bounded true r1 -> re_bounded false r2 -> re_bounded true (P.re_seq r1 r2).
Proof. exact (re_bounded_seq true false r1 r2). Qed.

Lemma re_bounded_seq_r r1 r2 :
  re_bounded false r1 -> re_bounded true r2 -> re_bounded true (P.re_seq r1 r2).
Proof. exact (re_bounded_seq false true r1 r2). Qed.

Lemma re_bounded_alt b r1 r2 :
  re_bounded b r1 -> re_bounded b r2 -> re_bounded b (P.re_alt r1 r2).
Proof.
  intros H1 H2 input matched rest. unfold P.re_alt.
  destruct (r1 input) as [[m1 rest1] |] eqn:E1.
  - intros [= <- <-]. by eapply H1.
  - by apply H2.
Qed.

Lemma bounded_regexp b n re : re_bounded b re -> bounded b n (P.regexp re).
Proof.
  intros Hre input _. unfold P.regexp.
  destruct (re input) as [[matched rest] |] eqn:E; [| done]. by eapply Hre.
Qed.

Lemma strip_prefix_length prefix : forall input rest,
  P.strip_prefix prefix input = Some rest ->
  String.length input = String.length prefix + String.length rest.
Proof.
  induction prefix as [| a prefix IH]; intros input rest; cbn.
  - by intros [= ->].
  - destruct input as [| b input]; [done |]. destruct (Ascii.eqb a b); [| done].
    intros Hrest. cbn. f_equal. by apply IH.
Qed.

Lemma bounded_string n str : str <> EmptyString -> bounded true n (P.string str).
Proof.
  intros Hstr input _. unfold P.string.
  destruct (P.strip_prefix str input) as [rest |] eqn:E; [| done].
  apply strip_prefix_length in E. destruct str; [done |]. cbn in *. lia.
Qed.

Lemma bounded_optWhitespace n : bounded false n P.optWhitespace.
Proof. apply bounded_regexp, re_bounded_star. Qed.

Lemma bounded_token n str :
  str <> EmptyString -> bounded true n (P.trim (P.string str) P.optWhitespace).
Proof. intros. apply bounded_trim; [apply bounded_optWhitespace | by apply bounded_string]. Qed.

Lemma bounded_createOperatorParser {T} n (operators : list (Parser.Operator T)) :
  Forall (fun o => Parser.operator_str o <> EmptyString) operators ->
  bounded true n (Parser.createOperatorParser operators).
Proof.
  intros Hops. unfold Parser.createOperatorParser. apply bounded_alt.
  induction Hops as [| o operators Ho Hops IH]; constructor; [| done].
  unfold P.desc, P.result. by apply bounded_map, bounded_token.
Qed.

Lemma bounded_number_parser n : bounded true n Parser.number_parser.
Proof.
  apply bounded_map, bounded_regexp.
  assert (forall class,
            re_bounded true (P.re_seq (P.re_one (P.is_char ".")) (P.re_plus class)))
    as Hdot by (intros; apply re_bounded_seq_l;
                [apply re_bounded_one | apply re_bounded_weaken, re_bounded_plus]).
  apply re_bounded_alt; [| apply re_bounded_alt; [| apply re_bounded_alt]].
  - apply re_bounded_seq_r; [apply re_bounded_weaken, re_bounded_plus | apply Hdot].
  - apply re_bounded_seq_r; [apply re_bounded_star | apply Hdot].
  - apply re_bounded_seq_l; [apply re_bounded_plus |].
    apply re_bounded_weaken, re_bounded_seq_l; [apply re_bounded_one | apply re_bounded_star].
  - apply re_bounded_plus.
Qed.

Lemma bounded_bool_parser n : bounded true n Parser.bool_parser.
Proof.
  apply bounded_alt. repeat constructor; by apply bounded_map, bounded_string.
Qed.

Lemma bounded_string_parser n : bounded true n Parser.string_parser.
Proof.
  apply bounded_map, bounded_alt.
  repeat constructor;
    (apply bounded_seq_first; [by apply bounded_string |];
     apply bounded_seq_weak;
     [apply bounded_regexp, re_bounded_star | by apply bounded_weaken, bounded_string]).
Qed.

Lemma bounded_variable_parser n : bounded true n Parser.variable_parser.
Proof.
  apply bounded_map, bounded_regexp.
  apply re_bounded_seq_l; [apply re_bounded_one | apply re_bounded_star].
Qed.

Section BoundedGrammar.
Variable n : nat.
Variable expression_parser : P.Parser Expression.
Hypothesis bounded_expression : bounded true n expression_parser.

Lemma bounded_parens_parser : bounded true (S n) (Parser.parens_parser expression_parser).
Proof using All.
  apply bounded_map, bounded_seq_after; [by apply bounded_string |].
  apply bounded_seq_weak; [by apply bounded_weaken | by apply bounded_weaken, bounded_string].
Qed.

Lemma bounded_head :
  bounded true (S n) (P.or Parser.variable_parser (Parser.parens_parser expression_parser)).
Proof using All.
  apply bounded_or; [apply bounded_variable_parser | apply bounded_parens_parser].
Qed.

Lemma bounded_trimmed_expression :
  bounded false n (P.trim expression_parser P.optWhitespace).
Proof using All.
  apply bounded_weaken, bounded_trim; [apply bounded_optWhitespace | done].
Qed.

Lemma bounded_elements :
  bounded false n
    (P.sepBy expression_parser (P.trim (P.string ",") P.optWhitespace)).
Proof using All. apply bounded_sepBy; [done | by apply bounded_weaken, bounded_token]. Qed.

Lemma bounded_closing str :
  str <> EmptyString -> bounded false n (P.string str).
Proof. intros. by apply bounded_weaken, bounded_string. Qed.

Lemma bounded_primary_parser :
  bounded true (S n) (Parser.primary_parser expression_parser).
Proof using All.
  apply bounded_alt.
  repeat match goal with |- Forall _ _ => constructor end.
  - apply bounded_number_parser.
  - apply bounded_bool_parser.
  - apply bounded_string_parser.
  - apply bounded_map, bounded_seq_after; [by apply bounded_token |].
    apply bounded_seq_weak; [apply bounded_map, bounded_elements |].
    by apply bounded_weaken, bounded_token.
  - apply bounded_map, bounded_seq_after; [apply bounded_head |].
    apply bounded_seq_weak; [by apply bounded_closing |].
    apply bounded_seq_weak; [| by apply bounded_closing].
    apply bounded_trim; [apply bounded_optWhitespace | apply bounded_elements].
  - apply bounded_map, bounded_seq_after; [apply bounded_head |].
    apply bounded_seq_weak; [by apply bounded_closing |].
    apply bounded_seq_weak; [apply bounded_trimmed_expression | by apply bounded_closing].
  - apply bounded_map, bounded_seq_after; [apply bounded_head |].
    apply bounded_seq_weak; [by apply bounded_closing |].
    apply bounded_seq_weak; [apply bounded_trimmed_expression |].
    apply bounded_seq_weak; [by apply bounded_closing |].
    apply bounded_seq_weak; [apply bounded_trimmed_expression | by apply bounded_closing].
  - apply bounded_parens_parser.
  - apply bounded_variable_parser.
Qed.

End BoundedGrammar.

Lemma bounded_unaryPreFixParser op :
  (forall m, bounded true m op) ->
  forall n fuel prev, n <= fuel -> bounded true n prev ->
    bounded true n (Parser.unaryPreFixParser fuel prev op).
Proof.
  intros Hop. induction n as [| n IH]; intros fuel prev Hfuel Hprev; [apply bounded_zero |].
  destruct fuel as [| fuel]; [lia |]. cbn [Parser.unaryPreFixParser].
  apply bounded_or; [| done]. apply bounded_map, bounded_seq_after; [done |].
  apply bounded_weaken, IH; [lia |]. apply bounded_le with (S n); [lia | done].
Qed.

Lemma bounded_rightAssociativeBinaryOperatorParser op :
  (forall m, bounded true m op) ->
  forall n fuel prev, n <= fuel -> bounded true n prev ->
    bounded true n (Parser.rightAssociativeBinaryOperatorParser fuel prev op).
Proof.
  intros Hop. induction n as [| n IH]; intros fuel prev Hfuel Hprev; [apply bounded_zero |].
  destruct fuel as [| fuel]; [lia |]. cbn [Parser.rightAssociativeBinaryOperatorParser].
  apply (bounded_chain true false (S n)); [done |]. intros left_expression. cbn [Nat.pred].
  apply bounded_or; [| apply bounded_succeed].
  apply bounded_map, bounded_weaken, bounded_seq_first; [done |].
  apply bounded_weaken, IH; [lia |]. apply bounded_le with (S n); [lia | done].
Qed.

Lemma bounded_condition_parser :
  forall n fuel prev, n <= fuel -> bounded true n prev ->
    bounded true n (Parser.condition_parser fuel prev).
Proof.
  induction n as [| n IH]; intros fuel prev Hfuel Hprev; [apply bounded_zero |].
  destruct fuel as [| fuel]; [lia |]. cbn [Parser.condition_parser].
  assert (bounded true n prev) as Hprev' by (apply bounded_le with (S n); [lia | done]).
  apply (bounded_chain true false (S n)); [done |]. intros a. cbn [Nat.pred].
  apply bounded_or; [| apply bounded_succeed].
  apply bounded_map, bounded_weaken, bounded_seq_first; [by apply bounded_token |].
  apply bounded_seq_weak; [by apply bounded_weaken |].
  apply bounded_seq_weak; [by apply bounded_weaken, bounded_token |].
  apply bounded_weaken, IH; [lia | done].
Qed.

Lemma bounded_leftAssociativeBinaryOperatorParser op n prev :
  (forall m, bounded true m op) -> bounded true n prev ->
  bounded true n (Parser.leftAssociativeBinaryOperatorParser prev op).
Proof.
  intros Hop Hprev. unfold Parser.leftAssociativeBinaryOperatorParser.
  apply bounded_map, bounded_seq_first; [done |].
  apply bounded_many, bounded_seq_first; [done | by apply bounded_weaken].
Qed.

Lemma bounded_expression_parser :
  forall n fuel, n < fuel -> bounded true n (Parser.expression_parser fuel).
Proof.
  induction n as [| n IH]; intros fuel Hfuel; [apply bounded_zero |].
  destruct fuel as [| fuel]; [lia |]. cbn [Parser.expression_parser].
  assert (n < fuel) as Hfuel' by lia. assert (S n <= fuel) as Hlayer by lia.
  pose proof (bounded_primary_parser n _ (IH fuel Hfuel')) as Hprimary.
  unfold Parser.associativity_table. cbn [foldl].
  repeat first
    [ apply bounded_rightAssociativeBinaryOperatorParser; [| done |]
    | apply bounded_unaryPreFixParser; [| done |]
    | apply bounded_condition_parser; [done |]
    | apply bounded_leftAssociativeBinaryOperatorParser ];
    try done;
    intros m; apply bounded_createOperatorParser;
    repeat match goal with |- Forall _ _ => constructor end; done.
Qed.

(** X11.  Parsing always ends, and in one of two ways: [tryParse] either
    returns a tree having read the whole input, or fails.  The grammar never
    refers back to itself without having read a character, so it is never
    unfolded deeper than [tryParse] allows, and no repetition loops on a
    parser that reads nothing. *)
Theorem tryParse_returns_a_tree_or_fails (input : string) :
  (exists e, Parser.tryParse input = P.Success e EmptyString) \/
  Parser.tryParse input = P.Failure.
Proof.
  unfold Parser.tryParse, P.skip, P.chain.
  pose proof (bounded_expression_parser (S (String.length input))
                (String.length input + 2) ltac:(lia) input ltac:(lia)) as Hend.
  destruct (Parser.expression_parser _ input) as [e rest | | why]; [| by right | done].
  destruct rest; cbn; eauto.
Qed.

(** *** Literals *)

Lemma through_rightAssociativeBinaryOperatorParser fuel prev op input e :
  prev input = P.Success e EmptyString -> op EmptyString = P.Failure ->
  Parser.rightAssociativeBinaryOperatorParser (S fuel) prev op input
    = P.Success e EmptyString.
Proof.
  intros Hprev Hop. cbn [Parser.rightAssociativeBinaryOperatorParser].
  unfold P.chain at 1. rewrite Hprev. unfold P.or, P.map, P.seq, P.chain. by rewrite Hop.
Qed.

Lemma through_unaryPreFixParser fuel prev op input e :
  prev input = P.Success e EmptyString -> op input = P.Failure ->
  Parser.unaryPreFixParser (S fuel) prev op input = P.Success e EmptyString.
Proof.
  intros Hprev Hop. cbn [Parser.unaryPreFixParser].
  unfold P.or, P.map, P.seq, P.chain. by rewrite Hop.
Qed.

Lemma through_leftAssociativeBinaryOperatorParser prev op input e :
  prev input = P.Success e EmptyString -> op EmptyString = P.Failure ->
  Parser.leftAssociativeBinaryOperatorParser prev op input = P.Success e EmptyString.
Proof.
  intros Hprev Hop. unfold Parser.leftAssociativeBinaryOperatorParser.
  unfold P.map, P.seq, P.chain at 1 2. rewrite Hprev.
  unfold P.many, P.chain. cbn. by rewrite Hop.
Qed.

Lemma through_condition_parser fuel prev input e :
  prev input = P.Success e EmptyString ->
  Parser.condition_parser (S fuel) prev input = P.Success e EmptyString.
Proof.
  intros Hprev. cbn [Parser.condition_parser]. unfold P.chain at 1. by rewrite Hprev.
Qed.

(** A primary expression that is the whole input, and that neither prefix
    operator can start, is the result of the parse. *)
Lemma tryParse_primary (input : string) (e : Expression) :
  (forall expression_parser,
     Parser.primary_parser expression_parser input = P.Success e EmptyString) ->
  negate_operator input = P.Failure ->
  not_operator input = P.Failure ->
  Parser.tryParse input = P.Success e EmptyString.
Proof.
  intros Hprimary Hnegate Hnot. unfold Parser.tryParse.
  replace (String.length input + 2) with (S (S (String.length input))) by lia.
  cbn [Parser.expression_parser]. unfold Parser.associativity_table. cbn [foldl].
  unfold P.skip. unfold P.chain at 1.
  rewrite through_rightAssociativeBinaryOperatorParser with (e := e); [done | | done].
  apply through_condition_parser.
  do 2 (apply through_leftAssociativeBinaryOperatorParser; [| done]).
  apply through_unaryPreFixParser; [| exact Hnot].
  do 3 (apply through_leftAssociativeBinaryOperatorParser; [| done]).
  apply through_unaryPreFixParser; [| exact Hnegate].
  apply through_rightAssociativeBinaryOperatorParser; [| done].
  apply Hprimary.
Qed.

Lemma optWhitespace_none (c : ascii) (rest : string) :
  P.whitespace c = false ->
  P.optWhitespace (String.String c rest) = P.Success EmptyString (String.String c rest).
Proof.
  intros Hws. unfold P.optWhitespace, P.regexp, P.re_star. cbn [P.take_while].
  by rewrite Hws.
Qed.

Lemma token_fails (a : ascii) (str : string) (c : ascii) (rest : string) :
  P.whitespace c = false -> Ascii.eqb a c = false ->
  P.trim (P.string (String.String a str)) P.optWhitespace (String.String c rest) = P.Failure.
Proof.
  intros Hws Hc. unfold P.trim, P.skip, P.then_, P.chain.
  rewrite (optWhitespace_none _ _ Hws). unfold P.string. cbn [P.strip_prefix].
  by rewrite Hc.
Qed.

Lemma prefix_operators_fail (c : ascii) (rest : string) :
  P.whitespace c = false -> Ascii.eqb "-" c = false -> Ascii.eqb "n" c = false ->
  negate_operator (String.String c rest) = P.Failure /\
  not_operator (String.String c rest) = P.Failure.
Proof.
  intros Hws Hminus Hn.
  unfold negate_operator, not_operator, Parser.createOperatorParser, P.desc, P.result,
    P.map. cbn [List.map P.alt foldr Parser.operator_str Parser.operator].
  unfold P.or, P.chain.
  by rewrite (token_fails "-" EmptyString c rest Hws Hminus),
    (token_fails "n" "ot" c rest Hws Hn).
Qed.

Lemma number_regex_first (c : ascii) (rest matched rest' : string) :
  Parser.number_regex (String.String c rest) = Some (matched, rest') ->
  P.in_range "0" "9" c || P.is_char "." c = true.
Proof.
  destruct (P.in_range "0" "9" c) eqn:Hdigit; [done |].
  destruct (P.is_char "." c) eqn:Hdot; [done |].
  unfold Parser.number_regex, P.re_alt, P.re_seq, P.re_plus, P.re_star, P.re_one.
  cbn [P.take_while]. by rewrite Hdigit, Hdot.
Qed.

Lemma literal_start_is_no_operator (c : ascii) :
  P.in_range "0" "9" c || P.is_char "." c
  || Ascii.eqb Parser.double_quote c || Ascii.eqb Parser.single_quote c = true ->
  P.whitespace c = false /\ Ascii.eqb "-" c = false /\ Ascii.eqb "n" c = false.
Proof.
  destruct c as [[] [] [] [] [] [] [] []]; intros Hc; vm_compute in Hc;
    try discriminate Hc; by vm_compute.
Qed.

Lemma take_while_all (class : ascii -> bool) (s : string) :
  all_chars class s = true -> P.take_while class s = (s, EmptyString).
Proof.
  induction s as [| c s IH]; [done |]. cbn. intros [Hc Hs]%andb_true_iff.
  by rewrite Hc, IH.
Qed.

Lemma take_while_until (class : ascii -> bool) (s : string) (c : ascii) (rest : string) :
  all_chars class s = true -> class c = false ->
  P.take_while class (s +:+ String.String c rest) = (s, String.String c rest).
Proof.
  intros Hs Hc. induction s as [| a s IH]; simpl.
  - by rewrite Hc.
  - simpl in Hs. apply andb_true_iff in Hs as [Ha Hs]. by rewrite Ha, IH.
Qed.

Lemma number_regex_digits (s : string) :
  s <> EmptyString -> all_chars (P.in_range "0" "9") s = true ->
  Parser.number_regex s = Some (s, EmptyString).
Proof.
  intros Hne Hdigits.
  unfold Parser.number_regex, P.re_alt, P.re_seq, P.re_plus, P.re_star, P.re_one.
  rewrite (take_while_all _ _ Hdigits). by destruct s.
Qed.

(** X12.  Every unsigned decimal literal is parsed.  A text that the
    regular expression of [number_parser] matches entirely, for instance
    any non-empty run of digits, parses to the [Number] node holding
    [parseFloat] of the text, and that node resolves to the same number. *)
Theorem number_literals_parse_to_their_value :
  (forall text : string,
     Parser.number_regex text = Some (text, EmptyString) ->
     Parser.tryParse text = P.Success (Number (Num.parseFloat text)) EmptyString /\
     forall `{Host} (st : State),
       resolve (Number (Num.parseFloat text)) st
         = (Return (VNumber (Num.parseFloat text)), st)) /\
  (forall digits : string,
     digits <> EmptyString -> all_chars (P.in_range "0" "9") digits = true ->
     Parser.number_regex digits = Some (digits, EmptyString)).
Proof.
  split; [| apply number_regex_digits].
  intros text Hmatch. split; [| done].
  destruct text as [| c rest]; [done |].
  pose proof (number_regex_first _ _ _ _ Hmatch) as Hc.
  destruct (literal_start_is_no_operator c) as (Hws & Hminus & Hn);
    [by rewrite Hc |].
  destruct (prefix_operators_fail c rest Hws Hminus Hn) as [Hnegate Hnot].
  apply tryParse_primary; [| done | done].
  intros expression_parser. unfold Parser.primary_parser. cbn [P.alt foldr].
  unfold P.or, Parser.number_parser, P.desc, P.map, P.chain, P.regexp.
  by rewrite Hmatch.
Qed.

Lemma number_literals_parse_to_their_value_witness :
  Parser.number_regex "12.5" = Some ("12.5", EmptyString) /\
  Parser.tryParse "12.5" = P.Success (Number 12.5) EmptyString /\
  "2024" <> EmptyString /\
  all_chars (P.in_range "0" "9") "2024" = true /\
  Parser.number_regex "2024" = Some ("2024", EmptyString).
Proof.
  split; [reflexivity |].
  split; [exact (proj1 (proj1 number_literals_parse_to_their_value "12.5" eq_refl)) |].
  split; [discriminate |]. split; [reflexivity |].
  exact (proj2 number_literals_parse_to_their_value "2024" ltac:(discriminate) eq_refl).
Defined.

Lemma or_failure {A} (p q : P.Parser A) input :
  p input = P.Failure -> P.or p q input = q input.
Proof. unfold P.or. by intros ->. Qed.

Lemma or_success {A} (p q : P.Parser A) input value rest :
  p input = P.Success value rest -> P.or p q input = P.Success value rest.
Proof. unfold P.or. by intros ->. Qed.

Lemma seq_success {A B} (p : P.Parser A) (q : P.Parser B) input a rest b rest' :
  p input = P.Success a rest -> q rest = P.Success b rest' ->
  P.seq p q input = P.Success (a, b) rest'.
Proof. unfold P.seq, P.chain. by intros -> ->. Qed.

Lemma seq_failure {A B} (p : P.Parser A) (q : P.Parser B) input :
  p input = P.Failure -> P.seq p q input = P.Failure.
Proof. unfold P.seq, P.chain. by intros ->. Qed.

Lemma string_first (c : ascii) (rest : string) :
  P.string (Parser.quote c) (String.String c rest) = P.Success (Parser.quote c) rest.
Proof. unfold P.string, Parser.quote. cbn [P.strip_prefix]. by rewrite Ascii.eqb_refl. Qed.

Lemma quoted_text (quote : ascii) (content : string) :
  all_chars (fun c => negb (Ascii.eqb quote c)) content = true ->
  P.seq (P.string (Parser.quote quote))
    (P.seq (P.regexp (P.re_star (fun c => negb (P.is_char quote c))))
       (P.string (Parser.quote quote)))
    (String.String quote (content +:+ String.String quote EmptyString))
  = P.Success (Parser.quote quote, (content, Parser.quote quote)) EmptyString.
Proof.
  intros Hcontent.
  eapply seq_success; [apply string_first |].
  eapply seq_success; [| apply string_first].
  unfold P.regexp, P.re_star. rewrite take_while_until; [done | done |].
  unfold P.is_char. by rewrite Ascii.eqb_refl.
Qed.

Lemma string_parser_reads (quote : ascii) (content : string) :
  quote = Parser.double_quote \/ quote = Parser.single_quote ->
  all_chars (fun c => negb (Ascii.eqb quote c)) content = true ->
  Parser.string_parser
    (String.String quote (content +:+ String.String quote EmptyString))
  = P.Success (String content) EmptyString.
Proof.
  intros Hquote Hcontent. pose proof (quoted_text quote content Hcontent) as Htext.
  unfold Parser.string_parser, P.desc, P.map, P.chain. cbn [P.alt foldr].
  destruct Hquote as [-> | ->].
  - by rewrite (or_success _ _ _ _ _ Htext).
  - rewrite or_failure; [by rewrite (or_success _ _ _ _ _ Htext) |].
    by apply seq_failure.
Qed.

(** X13.  String literals are kept verbatim.  A text between two double
    quotes, or between two single quotes, that does not contain that quote
    parses to the [String] node holding exactly the text between the
    quotes (a backslash is an ordinary character), and the node resolves to
    that string. *)
Theorem string_literals_parse_to_their_content (quote : ascii) (content : string) :
  quote = Parser.double_quote \/ quote = Parser.single_quote ->
  all_chars (fun c => negb (Ascii.eqb quote c)) content = true ->
  Parser.tryParse (String.String quote (content +:+ String.String quote EmptyString))
    = P.Success (String content) EmptyString /\
  forall `{Host} (st : State),
    resolve (String content) st = (Return (VString content), st).
Proof.
  intros Hquote Hcontent. split; [| done].
  destruct (literal_start_is_no_operator quote) as (Hws & Hminus & Hn).
  { destruct Hquote as [-> | ->]; reflexivity. }
  destruct (prefix_operators_fail quote (content +:+ String.String quote EmptyString)
              Hws Hminus Hn) as [Hnegate Hnot].
  apply tryParse_primary; [| done | done].
  intros expression_parser. unfold Parser.primary_parser. cbn [P.alt foldr].
  rewrite or_failure, or_failure.
  - apply or_success. by apply string_parser_reads.
  - destruct Hquote as [-> | ->]; reflexivity.
  - unfold Parser.number_parser, P.desc, P.map, P.chain, P.regexp.
    destruct (Parser.number_regex _) as [[matched rest] |] eqn:E; [| done].
    apply number_regex_first in E. destruct Hquote as [-> | ->]; discriminate E.
Qed.

Lemma string_literals_parse_to_their_content_witness :
  (Parser.single_quote = Parser.double_quote \/ Parser.single_quote = Parser.single_quote) /\
  all_chars (fun c => negb (Ascii.eqb Parser.single_quote c)) "a\nb" = true /\
  Parser.tryParse "'a\nb'" = P.Success (String "a\nb") EmptyString.
Proof.
  split; [by right |]. split; [reflexivity |].
  exact (proj1 (string_literals_parse_to_their_content Parser.single_quote "a\nb"
                  (or_intror eq_refl) eq_refl)).
Defined.

(** *** Names *)

Lemma map_failure {A B} (p : P.Parser A) (f : A -> B) input :
  p input = P.Failure -> P.map p f input = P.Failure.
Proof. unfold P.map, P.chain. by intros ->. Qed.

Lemma map_success {A B} (p : P.Parser A) (f : A -> B) input a rest :
  p input = P.Success a rest -> P.map p f input = P.Success (f a) rest.
Proof. unfold P.map, P.chain. by intros ->. Qed.

Lemma seq_failure_second {A B} (p : P.Parser A) (q : P.Parser B) input a rest :
  p input = P.Success a rest -> q rest = P.Failure -> P.seq p q input = P.Failure.
Proof. unfold P.seq, P.chain. by intros -> ->. Qed.

Lemma prefix_strip_prefix (str input : string) :
  String.prefix str input = false -> P.strip_prefix str input = None.
Proof.
  revert input. induction str as [| a str IH]; intros [| b input]; simpl; try done.
  destruct (ascii_dec a b) as [-> | Hne].
  - rewrite Ascii.eqb_refl. apply IH.
  - intros _. by apply Ascii.eqb_neq in Hne as ->.
Qed.

Lemma string_fails (str input : string) :
  String.prefix str input = false -> P.string str input = P.Failure.
Proof. intros Hprefix. unfold P.string. by rewrite (prefix_strip_prefix _ _ Hprefix). Qed.

Lemma string_fails_first (a : ascii) (str : string) (c : ascii) (rest : string) :
  Ascii.eqb a c = false -> P.string (String.String a str) (String.String c rest) = P.Failure.
Proof. intros Hc. unfold P.string. cbn [P.strip_prefix]. by rewrite Hc. Qed.

Lemma string_fails_at_end (a : ascii) (str : string) :
  P.string (String.String a str) EmptyString = P.Failure.
Proof. done. Qed.

Lemma keyword_fails (str : string) (c : ascii) (rest : string) :
  P.whitespace c = false -> String.prefix str (String.String c rest) = false ->
  P.trim (P.string str) P.optWhitespace (String.String c rest) = P.Failure.
Proof.
  intros Hws Hprefix. unfold P.trim, P.skip, P.then_, P.chain.
  by rewrite (optWhitespace_none _ _ Hws), (string_fails _ _ Hprefix).
Qed.

Lemma variable_name_regex_first (c : ascii) (rest matched rest' : string) :
  Parser.variable_name_regex (String.String c rest) = Some (matched, rest') ->
  P.in_range "A" "Z" c || P.in_range "a" "z" c || P.is_char "_" c = true.
Proof.
  unfold Parser.variable_name_regex, P.re_seq, P.re_one.
  by destruct (P.in_range "A" "Z" c || P.in_range "a" "z" c || P.is_char "_" c).
Qed.

Lemma name_start_is_no_other_token (c : ascii) :
  P.in_range "A" "Z" c || P.in_range "a" "z" c || P.is_char "_" c = true ->
  P.whitespace c = false /\ Ascii.eqb "-" c = false /\
  P.in_range "0" "9" c || P.is_char "." c = false /\
  Ascii.eqb Parser.double_quote c = false /\ Ascii.eqb Parser.single_quote c = false /\
  Ascii.eqb "[" c = false /\ Ascii.eqb "(" c = false.
Proof.
  destruct c as [[] [] [] [] [] [] [] []]; intros Hc; vm_compute in Hc;
    try discriminate Hc; by vm_compute.
Qed.

Lemma number_parser_fails (c : ascii) (rest : string) :
  P.in_range "0" "9" c || P.is_char "." c = false ->
  Parser.number_parser (String.String c rest) = P.Failure.
Proof.
  intros Hc. unfold Parser.number_parser, P.desc, P.map, P.chain, P.regexp.
  destruct (Parser.number_regex _) as [[matched rest'] |] eqn:E; [| done].
  apply number_regex_first in E. by rewrite Hc in E.
Qed.

Lemma bool_parser_fails (input : string) :
  String.prefix "True" input = false -> String.prefix "False" input = false ->
  Parser.bool_parser input = P.Failure.
Proof.
  intros Htrue Hfalse. unfold Parser.bool_parser, P.desc. cbn [P.alt foldr].
  rewrite or_failure, or_failure; [done | |].
  - by apply map_failure, string_fails.
  - by apply map_failure, string_fails.
Qed.

Lemma string_parser_fails (c : ascii) (rest : string) :
  Ascii.eqb Parser.double_quote c = false -> Ascii.eqb Parser.single_quote c = false ->
  Parser.string_parser (String.String c rest) = P.Failure.
Proof.
  intros Hdouble Hsingle. unfold Parser.string_parser, P.desc. apply map_failure.
  cbn [P.alt foldr]. rewrite or_failure, or_failure; [done | |].
  - by apply seq_failure, string_fails_first.
  - by apply seq_failure, string_fails_first.
Qed.

Lemma variable_parser_name (name : string) :
  Parser.variable_name_regex name = Some (name, EmptyString) ->
  Parser.variable_parser name = P.Success (Variable_ name) EmptyString.
Proof.
  intros Hmatch. unfold Parser.variable_parser, P.desc. apply map_success.
  unfold P.regexp. by rewrite Hmatch.
Qed.

Lemma head_parser_name (expression_parser : P.Parser Expression) (name : string) :
  Parser.variable_name_regex name = Some (name, EmptyString) ->
  P.or Parser.variable_parser (Parser.parens_parser expression_parser) name
  = P.Success (Variable_ name) EmptyString.
Proof. intros Hmatch. by apply or_success, variable_parser_name. Qed.

Lemma primary_parser_name (expression_parser : P.Parser Expression) (name : string) :
  Parser.variable_name_regex name = Some (name, EmptyString) ->
  String.prefix "True" name = false ->
  String.prefix "False" name = false ->
  Parser.primary_parser expression_parser name = P.Success (Variable_ name) EmptyString.
Proof.
  intros Hmatch Htrue Hfalse.
  pose proof (head_parser_name expression_parser name Hmatch) as Hhead.
  pose proof (variable_parser_name name Hmatch) as Hvariable.
  pose proof (bool_parser_fails name Htrue Hfalse) as Hbool.
  destruct name as [| c rest]; [done |].
  apply variable_name_regex_first in Hmatch.
  destruct (name_start_is_no_other_token c Hmatch)
    as (Hws & Hminus & Hdigit & Hdouble & Hsingle & Hbracket & Hparen).
  unfold Parser.primary_parser. cbn [P.alt foldr].
  rewrite or_failure; [| by apply number_parser_fails].
  rewrite or_failure; [| done].
  rewrite or_failure; [| by apply string_parser_fails].
  rewrite or_failure.
  2: { unfold Parser.list_parser, P.desc. apply map_failure, seq_failure.
       by apply token_fails. }
  rewrite or_failure.
  2: { unfold Parser.apply_parser. apply map_failure.
       eapply seq_failure_second; [apply Hhead |]. done. }
  rewrite or_failure.
  2: { unfold Parser.index_parser, P.desc. apply map_failure.
       eapply seq_failure_second; [apply Hhead |]. done. }
  rewrite or_failure.
  2: { unfold Parser.slice_parser, P.desc. apply map_failure.
       eapply seq_failure_second; [apply Hhead |]. done. }
  rewrite or_failure.
  2: { unfold Parser.parens_parser, P.desc. apply map_failure, seq_failure.
       by apply string_fails_first. }
  by apply or_success.
Qed.

Lemma unaryPreFixParser_operator fuel prev op input constructor rest e rest' :
  op input = P.Success constructor rest ->
  Parser.unaryPreFixParser fuel prev op rest = P.Success e rest' ->
  Parser.unaryPreFixParser (S fuel) prev op input = P.Success (constructor e) rest'.
Proof.
  intros Hop Hinner. cbn [Parser.unaryPreFixParser]. apply or_success.
  by rewrite (map_success _ _ _ _ _ (seq_success _ _ _ _ _ _ _ Hop Hinner)).
Qed.

Lemma chain_success {A B} (p : P.Parser A) (f : A -> P.Parser B) input a rest :
  p input = P.Success a rest -> P.chain p f input = f a rest.
Proof. unfold P.chain. by intros ->. Qed.

Lemma strip_prefix_app (str rest : string) : P.strip_prefix str (str +:+ rest) = Some rest.
Proof. induction str as [| a str IH]; simpl; [done |]. by rewrite Ascii.eqb_refl. Qed.

Lemma string_reads (str rest : string) :
  P.string str (str +:+ rest) = P.Success str rest.
Proof. unfold P.string. by rewrite strip_prefix_app. Qed.

(** An operator token directly followed by the next token. *)
Lemma token_reads (a : ascii) (str : string) (c : ascii) (rest : string) :
  P.whitespace a = false -> P.whitespace c = false ->
  P.trim (P.string (String.String a str)) P.optWhitespace
    (String.String a str +:+ String.String c rest)
  = P.Success (String.String a str) (String.String c rest).
Proof.
  intros Ha Hc. unfold P.trim, P.skip, P.then_.
  rewrite (chain_success (P.chain P.optWhitespace (fun _ => P.string (String.String a str)))
             _ (String.String a str +:+ String.String c rest)
             (String.String a str) (String.String c rest)).
  - unfold P.result.
    apply (map_success P.optWhitespace (fun _ => String.String a str) _ EmptyString).
    by apply optWhitespace_none.
  - rewrite (chain_success P.optWhitespace _ _ EmptyString
               (String.String a str +:+ String.String c rest)).
    + apply string_reads.
    + exact (optWhitespace_none a _ Ha).
Qed.

Lemma not_operator_reads (c : ascii) (rest : string) :
  P.whitespace c = false ->
  not_operator ("not" +:+ String.String c rest) = P.Success Not (String.String c rest).
Proof.
  intros Hws.
  unfold not_operator, Parser.createOperatorParser, P.desc, P.result.
  cbn [List.map P.alt foldr Parser.operator_str Parser.operator Parser.constructor].
  apply or_success.
  apply (map_success _ (fun _ => Not) _ "not"%string).
  by apply token_reads.
Qed.

(** X14.  A name is read as a variable unless a keyword begins it.  A text
    that [variable_name_regex] matches entirely and that does not begin
    with [True], [False] or [not] parses to the [Variable] of that name.
    Written directly after [not], without a space, the same name is not
    part of a longer name: the text parses to the negation of the
    variable, so [nothing] is read as [not hing]. *)
Theorem names_parse_to_variables (name : string) :
  Parser.variable_name_regex name = Some (name, EmptyString) ->
  String.prefix "True" name = false ->
  String.prefix "False" name = false ->
  String.prefix "not" name = false ->
  Parser.tryParse name = P.Success (Variable_ name) EmptyString /\
  Parser.tryParse ("not" +:+ name) = P.Success (Not (Variable_ name)) EmptyString.
Proof.
  intros Hmatch Htrue Hfalse Hnot.
  destruct name as [| c rest] eqn:Hname; [done |].
  pose proof (variable_name_regex_first _ _ _ _ Hmatch) as Hc.
  destruct (name_start_is_no_other_token c Hc) as (Hws & Hminus & _).
  assert (negate_operator (String.String c rest) = P.Failure) as Hnegate_fails.
  { unfold negate_operator, Parser.createOperatorParser, P.desc, P.result.
    cbn [List.map P.alt foldr Parser.operator_str Parser.operator].
    rewrite or_failure; [done |]. by apply map_failure, token_fails. }
  assert (not_operator (String.String c rest) = P.Failure) as Hnot_fails.
  { unfold not_operator, Parser.createOperatorParser, P.desc, P.result.
    cbn [List.map P.alt foldr Parser.operator_str Parser.operator].
    rewrite or_failure; [done |]. by apply map_failure, keyword_fails. }
  rewrite <- Hname in *. split.
  - apply tryParse_primary; [| done | done].
    intros expression_parser. by apply primary_parser_name.
  - unfold Parser.tryParse.
    change (String.length ("not" +:+ name) + 2) with (S (S (S (String.length name))) + 2).
    rewrite Nat.add_comm. cbn [Nat.add].
    cbn [Parser.expression_parser]. unfold Parser.associativity_table. cbn [foldl].
    unfold P.skip. unfold P.chain at 1.
    rewrite through_rightAssociativeBinaryOperatorParser
      with (e := Not (Variable_ name)); [done | | done].
    apply through_condition_parser.
    do 2 (apply through_leftAssociativeBinaryOperatorParser; [| done]).
    eapply unaryPreFixParser_operator.
    { rewrite Hname. apply (not_operator_reads c rest Hws). }
    apply through_unaryPreFixParser; [| exact Hnot_fails].
    do 3 (apply through_leftAssociativeBinaryOperatorParser; [| done]).
    apply through_unaryPreFixParser; [| exact Hnegate_fails].
    apply through_rightAssociativeBinaryOperatorParser; [| done].
    by apply primary_parser_name.
Qed.

Lemma names_parse_to_variables_witness :
  Parser.variable_name_regex "hing" = Some ("hing"%string, EmptyString) /\
  Parser.tryParse "hing" = P.Success (Variable_ "hing") EmptyString /\
  Parser.tryParse "nothing" = P.Success (Not (Variable_ "hing")) EmptyString.
Proof.
  split; [reflexivity |].
  exact (names_parse_to_variables "hing" eq_refl eq_refl eq_refl eq_refl).
Defined.

(** *** White space *)

Lemma chain_failure {A B} (p : P.Parser A) (f : A -> P.Parser B) input :
  p input = P.Failure -> P.chain p f input = P.Failure.
Proof. unfold P.chain. by intros ->. Qed.

Lemma many_none {A} (p : P.Parser A) input :
  p input = P.Failure -> P.many p input = P.Success [] input.
Proof. intros Hp. unfold P.many. destruct (String.length input); cbn; by rewrite Hp. Qed.

Lemma fail_rightAssociativeBinaryOperatorParser fuel prev op input :
  prev input = P.Failure ->
  Parser.rightAssociativeBinaryOperatorParser (S fuel) prev op input = P.Failure.
Proof. intros Hprev. cbn [Parser.rightAssociativeBinaryOperatorParser]. by apply chain_failure. Qed.

Lemma fail_unaryPreFixParser fuel prev op input :
  prev input = P.Failure -> op input = P.Failure ->
  Parser.unaryPreFixParser (S fuel) prev op input = P.Failure.
Proof.
  intros Hprev Hop. cbn [Parser.unaryPreFixParser].
  rewrite or_failure; [done |]. by apply map_failure, seq_failure.
Qed.



Lemma pass_rightAssociativeBinaryOperatorParser fuel prev op input e rest :
  prev input = P.Success e rest ->
  P.seq op (Parser.rightAssociativeBinaryOperatorParser fuel prev op) rest = P.Failure ->
  Parser.rightAssociativeBinaryOperatorParser (S fuel) prev op input = P.Success e rest.
Proof.
  intros Hprev Hseq. cbn [Parser.rightAssociativeBinaryOperatorParser].
  rewrite (chain_success _ _ _ _ _ Hprev). rewrite or_failure; [done |].
  by apply map_failure.
Qed.

Lemma pass_unaryPreFixParser fuel prev op input e rest :
  prev input = P.Success e rest -> op input = P.Failure ->
  Parser.unaryPreFixParser (S fuel) prev op input = P.Success e rest.
Proof.
  intros Hprev Hop. cbn [Parser.unaryPreFixParser].
  rewrite or_failure; [done |]. by apply map_failure, seq_failure.
Qed.

Lemma pass_leftAssociativeBinaryOperatorParser prev op input e rest :
  prev input = P.Success e rest -> P.seq op prev rest = P.Failure ->
  Parser.leftAssociativeBinaryOperatorParser prev op input = P.Success e rest.
Proof.
  intros Hprev Hseq. unfold Parser.leftAssociativeBinaryOperatorParser.
  by rewrite (map_success _ _ _ _ _
                (seq_success _ _ _ _ _ _ _ Hprev (many_none _ _ Hseq))).
Qed.

Lemma pass_condition_parser fuel prev input e rest :
  prev input = P.Success e rest ->
  P.trim (P.string "if") P.optWhitespace rest = P.Failure ->
  Parser.condition_parser (S fuel) prev input = P.Success e rest.
Proof.
  intros Hprev Hif. cbn [Parser.condition_parser].
  rewrite (chain_success _ _ _ _ _ Hprev). rewrite or_failure; [done |].
  by apply map_failure, seq_failure.
Qed.

Lemma createOperatorParser_fails {T} (operators : list (Parser.Operator T)) input :
  Forall (fun o => P.trim (P.string (Parser.operator_str o)) P.optWhitespace input
                   = P.Failure) operators ->
  Parser.createOperatorParser operators input = P.Failure.
Proof.
  unfold Parser.createOperatorParser. induction 1 as [| o operators Ho _ IH]; [done |].
  cbn [List.map P.alt foldr]. rewrite or_failure; [exact IH |].
  unfold P.desc, P.result. by apply map_failure.
Qed.






Lemma optWhitespace_reads (space : string) (c : ascii) (rest : string) :
  all_chars P.whitespace space = true -> P.whitespace c = false ->
  P.optWhitespace (space +:+ String.String c rest)
  = P.Success space (String.String c rest).
Proof.
  intros Hspace Hc. unfold P.optWhitespace, P.regexp, P.re_star.
  by rewrite (take_while_until _ _ _ _ Hspace Hc).
Qed.


Lemma token_fails_after (space : string) (a : ascii) (str : string) (c : ascii)
    (rest : string) :
  all_chars P.whitespace space = true -> P.whitespace c = false ->
  Ascii.eqb a c = false ->
  P.trim (P.string (String.String a str)) P.optWhitespace (space +:+ String.String c rest)
  = P.Failure.
Proof.
  intros Hspace Hws Hc. unfold P.trim, P.skip, P.then_.
  apply chain_failure. rewrite (chain_success _ _ _ _ _ (optWhitespace_reads _ _ _ Hspace Hws)).
  by apply string_fails_first.
Qed.


Lemma space_is_no_token (w : ascii) :
  P.whitespace w = true ->
  P.in_range "0" "9" w || P.is_char "." w = false /\
  Ascii.eqb "T" w = false /\ Ascii.eqb "F" w = false /\
  Ascii.eqb Parser.double_quote w = false /\ Ascii.eqb Parser.single_quote w = false /\
  Ascii.eqb "(" w = false /\
  P.in_range "A" "Z" w || P.in_range "a" "z" w || P.is_char "_" w = false.
Proof.
  destruct w as [[] [] [] [] [] [] [] []]; intros Hw; vm_compute in Hw;
    try discriminate Hw; by vm_compute.
Qed.

Lemma variable_parser_fails (c : ascii) (rest : string) :
  P.in_range "A" "Z" c || P.in_range "a" "z" c || P.is_char "_" c = false ->
  Parser.variable_parser (String.String c rest) = P.Failure.
Proof.
  intros Hc. unfold Parser.variable_parser, P.desc. apply map_failure.
  unfold P.regexp.
  destruct (Parser.variable_name_regex _) as [[matched rest'] |] eqn:E; [| done].
  apply variable_name_regex_first in E. by rewrite Hc in E.
Qed.

Lemma parens_parser_fails expression_parser (c : ascii) (rest : string) :
  Ascii.eqb "(" c = false ->
  Parser.parens_parser expression_parser (String.String c rest) = P.Failure.
Proof.
  intros Hc. unfold Parser.parens_parser, P.desc.
  by apply map_failure, seq_failure, string_fails_first.
Qed.

(** The primary expressions fail on a text whose first character starts
    none of them; only a list may start after white space. *)
Lemma primary_parser_fails expression_parser (c : ascii) (rest : string) :
  P.in_range "0" "9" c || P.is_char "." c = false ->
  Ascii.eqb "T" c = false -> Ascii.eqb "F" c = false ->
  Ascii.eqb Parser.double_quote c = false -> Ascii.eqb Parser.single_quote c = false ->
  Ascii.eqb "(" c = false ->
  P.in_range "A" "Z" c || P.in_range "a" "z" c || P.is_char "_" c = false ->
  P.trim (P.string "[") P.optWhitespace (String.String c rest) = P.Failure ->
  Parser.primary_parser expression_parser (String.String c rest) = P.Failure.
Proof.
  intros Hdigit Htrue Hfalse Hdouble Hsingle Hparen Hletter Hbracket.
  assert (P.or Parser.variable_parser (Parser.parens_parser expression_parser)
            (String.String c rest) = P.Failure) as Hhead.
  { rewrite or_failure; [by apply parens_parser_fails | by apply variable_parser_fails]. }
  unfold Parser.primary_parser. cbn [P.alt foldr].
  rewrite or_failure; [| by apply number_parser_fails].
  rewrite or_failure.
  2: { unfold Parser.bool_parser, P.desc. cbn [P.alt foldr].
       rewrite or_failure, or_failure; [done | |];
         by apply map_failure, string_fails_first. }
  rewrite or_failure; [| by apply string_parser_fails].
  rewrite or_failure.
  2: { unfold Parser.list_parser, P.desc. by apply map_failure, seq_failure. }
  rewrite or_failure.
  2: { unfold Parser.apply_parser. by apply map_failure, seq_failure. }
  rewrite or_failure.
  2: { unfold Parser.index_parser, P.desc. by apply map_failure, seq_failure. }
  rewrite or_failure.
  2: { unfold Parser.slice_parser, P.desc. by apply map_failure, seq_failure. }
  rewrite or_failure; [| by apply parens_parser_fails].
  rewrite or_failure; [done | by apply variable_parser_fails].
Qed.



Lemma re_plus_until (class : ascii -> bool) (s : string) (c : ascii) (rest : string) :
  s <> EmptyString -> all_chars class s = true -> class c = false ->
  P.re_plus class (s +:+ String.String c rest) = Some (s, String.String c rest).
Proof.
  intros Hne Hs Hc. unfold P.re_plus. rewrite (take_while_until _ _ _ _ Hs Hc).
  by destruct s.
Qed.

Lemma re_star_until (class : ascii -> bool) (s : string) (c : ascii) (rest : string) :
  all_chars class s = true -> class c = false ->
  P.re_star class (s +:+ String.String c rest) = Some (s, String.String c rest).
Proof. intros Hs Hc. unfold P.re_star. by rewrite (take_while_until _ _ _ _ Hs Hc). Qed.

Lemma re_one_fails (class : ascii -> bool) (c : ascii) (rest : string) :
  class c = false -> P.re_one class (String.String c rest) = None.
Proof. intros Hc. unfold P.re_one. by rewrite Hc. Qed.

Lemma re_seq_second_fails (r1 r2 : P.Regexp) input matched rest :
  r1 input = Some (matched, rest) -> r2 rest = None -> P.re_seq r1 r2 input = None.
Proof. unfold P.re_seq. by intros -> ->. Qed.

Lemma re_seq_first_fails (r1 r2 : P.Regexp) input :
  r1 input = None -> P.re_seq r1 r2 input = None.
Proof. unfold P.re_seq. by intros ->. Qed.

Lemma re_alt_first_fails (r1 r2 : P.Regexp) input :
  r1 input = None -> P.re_alt r1 r2 input = r2 input.
Proof. unfold P.re_alt. by intros ->. Qed.

Lemma number_regex_digits_then (digits : string) (c : ascii) (rest : string) :
  digits <> EmptyString -> all_chars (P.in_range "0" "9") digits = true ->
  P.in_range "0" "9" c || P.is_char "." c = false ->
  Parser.number_regex (digits +:+ String.String c rest)
  = Some (digits, String.String c rest).
Proof.
  intros Hne Hdigits [Hdigit Hdot]%orb_false_iff.
  pose proof (re_plus_until _ digits c rest Hne Hdigits Hdigit) as Hplus.
  pose proof (re_star_until _ digits c rest Hdigits Hdigit) as Hstar.
  assert (forall r, P.re_seq (P.re_one (P.is_char ".")) r (String.String c rest) = None)
    as Hno_dot by (intros r; by apply re_seq_first_fails, re_one_fails).
  unfold Parser.number_regex. cbv zeta.
  rewrite re_alt_first_fails; [| by eapply re_seq_second_fails].
  rewrite re_alt_first_fails; [| by eapply re_seq_second_fails].
  rewrite re_alt_first_fails; [| by eapply re_seq_second_fails].
  exact Hplus.
Qed.

Lemma primary_parser_digits_then expression_parser (digits : string) (c : ascii)
    (rest : string) :
  digits <> EmptyString -> all_chars (P.in_range "0" "9") digits = true ->
  P.in_range "0" "9" c || P.is_char "." c = false ->
  Parser.primary_parser expression_parser (digits +:+ String.String c rest)
  = P.Success (Number (Num.parseFloat digits)) (String.String c rest).
Proof.
  intros Hne Hdigits Hc. unfold Parser.primary_parser. cbn [P.alt foldr].
  apply or_success. unfold Parser.number_parser, P.desc.
  apply (map_success _ (fun str => Number (Num.parseFloat str))).
  unfold P.regexp. by rewrite number_regex_digits_then.
Qed.

Lemma digits_start_no_operator (digits rest : string) :
  digits <> EmptyString -> all_chars (P.in_range "0" "9") digits = true ->
  negate_operator (digits +:+ rest) = P.Failure /\
  not_operator (digits +:+ rest) = P.Failure.
Proof.
  intros Hne Hdigits. destruct digits as [| d digits]; [done |].
  apply andb_true_iff in Hdigits as [Hd _].
  destruct (literal_start_is_no_operator d) as (Hws & Hminus & Hn); [by rewrite Hd |].
  exact (prefix_operators_fail d (digits +:+ rest) Hws Hminus Hn).
Qed.



(** *** Operands of the exponentiation *)

Lemma token_reads_between (space1 : string) (a : ascii) (str space2 : string)
    (c : ascii) (rest : string) :
  all_chars P.whitespace space1 = true -> P.whitespace a = false ->
  all_chars P.whitespace space2 = true -> P.whitespace c = false ->
  P.trim (P.string (String.String a str)) P.optWhitespace
    (space1 +:+ (String.String a str +:+ (space2 +:+ String.String c rest)))
  = P.Success (String.String a str) (String.String c rest).
Proof.
  intros Hspace1 Ha Hspace2 Hc. unfold P.trim, P.skip, P.then_.
  rewrite (chain_success (P.chain P.optWhitespace (fun _ => P.string (String.String a str)))
             _ _ (String.String a str) (space2 +:+ String.String c rest)).
  - unfold P.result.
    apply (map_success P.optWhitespace (fun _ => String.String a str) _ space2).
    by apply optWhitespace_reads.
  - rewrite (chain_success P.optWhitespace _ _ space1
               (String.String a str +:+ (space2 +:+ String.String c rest))).
    + apply string_reads.
    + exact (optWhitespace_reads space1 a _ Hspace1 Ha).
Qed.

Lemma space_then (space : string) (c : ascii) (rest : string) :
  all_chars P.whitespace space = true ->
  exists c0 rest0,
    space +:+ String.String c rest = String.String c0 rest0 /\
    (c0 = c \/ P.whitespace c0 = true).
Proof.
  intros Hspace. destruct space as [| w space]; simpl; [by eauto |].
  apply andb_true_iff in Hspace as [Hw _]. by eauto.
Qed.

Lemma tryParse_leaves_deep (input : string) (e : Expression) (rest : string) :
  input <> EmptyString -> rest <> EmptyString ->
  (forall fuel, Parser.expression_parser (S (S (S fuel))) input = P.Success e rest) ->
  Parser.tryParse input = P.Failure.
Proof.
  intros Hinput Hrest Hleaves. unfold Parser.tryParse.
  destruct input as [| c input]; [done |]. cbn [String.length].
  rewrite Nat.add_comm. cbn [Nat.add].
  unfold P.skip. rewrite (chain_success _ _ _ _ _ (Hleaves _)). by destruct rest.
Qed.

Ltac operators_fail :=
  apply seq_failure, createOperatorParser_fails;
  repeat (match goal with |- Forall _ _ => constructor end);
  cbn [Parser.operator_str Parser.operator];
  by apply token_fails_after.

(** X17.  The right operand of [**] cannot begin with a minus sign.  The
    table places the prefix minus above the exponentiation, and the right
    operand of [**] is read at the level of [**] itself; so a run of digits
    followed by [**] and a minus sign is rejected, whatever follows the
    minus sign and with or without white space around [**]. *)
Theorem negative_exponent_is_rejected (digits space1 space2 rest : string) :
  digits <> EmptyString -> all_chars (P.in_range "0" "9") digits = true ->
  all_chars P.whitespace space1 = true ->
  all_chars P.whitespace space2 = true ->
  Parser.tryParse (digits +:+ (space1 +:+ ("**" +:+ (space2 +:+ String.String "-" rest))))
  = P.Failure.
Proof.
  intros Hne Hdigits Hspace1 Hspace2.
  set (exponent := String.String "-" rest).
  set (after := space1 +:+ ("**" +:+ (space2 +:+ exponent))).
  destruct (digits_start_no_operator digits after Hne Hdigits) as [Hnegate Hnot].
  destruct (space_then space1 "*" (String.String "*" (space2 +:+ exponent)) Hspace1)
    as (c0 & rest0 & Hafter & Hc0).
  change (space1 +:+ String.String "*" (String.String "*" (space2 +:+ exponent)))
    with after in Hafter.
  assert (P.in_range "0" "9" c0 || P.is_char "." c0 = false) as Hc0_digit.
  { destruct Hc0 as [-> | Hw]; [done |]. by destruct (space_is_no_token c0 Hw). }
  assert (forall expression_parser,
            Parser.primary_parser expression_parser (digits +:+ after)
            = P.Success (Number (Num.parseFloat digits)) after) as Hprimary.
  { intros expression_parser. rewrite Hafter. by apply primary_parser_digits_then. }
  assert (forall expression_parser a str,
            Parser.primary_parser expression_parser
              (String.String "*" (a +:+ String.String "-" str)) = P.Failure) as Hstar.
  { intros expression_parser a str. by apply primary_parser_fails. }
  assert (forall expression_parser,
            Parser.primary_parser expression_parser exponent = P.Failure) as Hminus.
  { intros expression_parser. by apply primary_parser_fails. }
  apply (tryParse_leaves_deep _ (Number (Num.parseFloat digits)) after).
  { by destruct digits. }
  { by rewrite Hafter. }
  intros fuel.
  cbn [Parser.expression_parser]. unfold Parser.associativity_table. cbn [foldl].
  apply pass_rightAssociativeBinaryOperatorParser; [| operators_fail].
  apply pass_condition_parser; [| by apply token_fails_after].
  do 2 (apply pass_leftAssociativeBinaryOperatorParser; [| operators_fail]).
  apply pass_unaryPreFixParser; [| exact Hnot].
  do 2 (apply pass_leftAssociativeBinaryOperatorParser; [| operators_fail]).
  apply pass_leftAssociativeBinaryOperatorParser.
  2: { eapply seq_failure_second.
       - unfold Parser.createOperatorParser. cbn [List.map P.alt foldr].
         apply or_success. unfold P.desc, P.result.
         cbn [Parser.operator_str Parser.operator Parser.constructor].
         apply (map_success _ (fun _ => Multiply) _ "*"%string).
         exact (token_reads_between space1 "*" EmptyString EmptyString "*"
                  (space2 +:+ exponent) Hspace1 eq_refl eq_refl eq_refl).
       - apply fail_unaryPreFixParser.
         + apply fail_rightAssociativeBinaryOperatorParser, Hstar.
         + apply createOperatorParser_fails. by repeat constructor. }
  apply pass_unaryPreFixParser; [| exact Hnegate].
  apply pass_rightAssociativeBinaryOperatorParser; [apply Hprimary |].
  eapply seq_failure_second.
  - unfold Parser.createOperatorParser. cbn [List.map P.alt foldr].
    apply or_success. unfold P.desc, P.result.
    cbn [Parser.operator_str Parser.operator Parser.constructor].
    apply (map_success _ (fun _ => Exponentiate) _ "**"%string).
    exact (token_reads_between space1 "*" "*" space2 "-" rest
             Hspace1 eq_refl Hspace2 eq_refl).
  - apply fail_rightAssociativeBinaryOperatorParser, Hminus.
Qed.

Lemma negative_exponent_is_rejected_witness :
  Parser.tryParse "2 ** -1" = P.Failure.
Proof.
  exact (negative_exponent_is_rejected "2" " " " " "1" ltac:(discriminate) eq_refl
           eq_refl eq_refl).
Defined.

(** *** The nodes the parser builds *)

Lemma yields_chain {A B} (Q1 : A -> Prop) (Q2 : B -> Prop) (p : P.Parser A)
    (f : A -> P.Parser B) :
  yields Q1 p -> (forall a, Q1 a -> yields Q2 (f a)) -> yields Q2 (P.chain p f).
Proof.
  intros Hp Hf input value rest. unfold P.chain.
  destruct (p input) as [a rest1 | |] eqn:E; [| done | done].
  apply Hf. by eapply Hp.
Qed.

Lemma yields_succeed {A} (Q : A -> Prop) (a : A) : Q a -> yields Q (P.succeed a).
Proof. by intros Ha input value rest [= <- _]. Qed.

Lemma yields_any {A} (p : P.Parser A) : yields any p.
Proof. done. Qed.

Lemma yields_map {A B} (Q1 : A -> Prop) (Q2 : B -> Prop) (p : P.Parser A) (f : A -> B) :
  yields Q1 p -> (forall a, Q1 a -> Q2 (f a)) -> yields Q2 (P.map p f).
Proof.
  intros Hp Hf. apply (yields_chain Q1); [done |].
  intros a Ha. by apply yields_succeed, Hf.
Qed.

Lemma yields_seq {A B} (Q1 : A -> Prop) (Q2 : B -> Prop) (p : P.Parser A) (q : P.Parser B) :
  yields Q1 p -> yields Q2 q -> yields (both Q1 Q2) (P.seq p q).
Proof.
  intros Hp Hq. apply (yields_chain Q1); [done |]. intros a Ha.
  apply (yields_chain Q2); [done |]. intros b Hb. by apply yields_succeed.
Qed.

Lemma yields_or {A} (Q : A -> Prop) (p q : P.Parser A) :
  yields Q p -> yields Q q -> yields Q (P.or p q).
Proof.
  intros Hp Hq input value rest. unfold P.or.
  destruct (p input) as [a rest1 | |] eqn:E; [| by apply Hq | done].
  intros [= <- <-]. by eapply Hp.
Qed.

Lemma yields_alt {A} (Q : A -> Prop) (ps : list (P.Parser A)) :
  Forall (yields Q) ps -> yields Q (P.alt ps).
Proof. induction 1; cbn [P.alt foldr]; [done | by apply yields_or]. Qed.

Lemma yields_trim {A B} (Q : A -> Prop) (p : P.Parser A) (q : P.Parser B) :
  yields Q p -> yields Q (P.trim p q).
Proof.
  intros Hp. unfold P.trim, P.skip, P.then_, P.result.
  apply (yields_chain Q).
  - apply (yields_chain any); [done | by intros].
  - intros a Ha. by apply (yields_map any).
Qed.

Lemma yields_many_loop {A} (Q : A -> Prop) (p : P.Parser A) rounds :
  yields Q p -> forall input values rest,
    P.many_loop rounds p input = P.Success values rest -> Forall Q values.
Proof.
  intros Hp. induction rounds as [| rounds IH]; intros input values rest; cbn [P.many_loop];
    destruct (p input) as [a rest1 | |] eqn:E; try done;
    try (by intros [= <- _]); destruct (_ =? _)%nat; try done.
  destruct (P.many_loop rounds p rest1) as [values1 rest2 | |] eqn:E1; [| done | done].
  intros [= <- _]. constructor; [by eapply Hp | by eapply IH].
Qed.

Lemma yields_many {A} (Q : A -> Prop) (p : P.Parser A) :
  yields Q p -> yields (Forall Q) (P.many p).
Proof. intros Hp input values rest. unfold P.many. by apply yields_many_loop. Qed.

Lemma yields_sepBy {A B} (Q : A -> Prop) (p : P.Parser A) (separator : P.Parser B) :
  yields Q p -> yields (Forall Q) (P.sepBy p separator).
Proof.
  intros Hp. unfold P.sepBy, P.sepBy1. apply yields_or; [| by apply yields_succeed].
  apply (yields_map (both Q (Forall Q))).
  - apply yields_seq; [done |]. apply yields_many. unfold P.then_.
    apply (yields_chain any); [done | by intros].
  - intros [first rest] [Hfirst Hrest]. by constructor.
Qed.

Lemma yields_createOperatorParser {T} (Q : T -> Prop) (operators : list (Parser.Operator T)) :
  Forall (fun o => Q (Parser.constructor o)) operators ->
  yields Q (Parser.createOperatorParser operators).
Proof.
  intros Hoperators. unfold Parser.createOperatorParser. apply yields_alt.
  induction Hoperators as [| o operators Ho _ IH]; constructor; [| done].
  unfold P.desc, P.result. by apply (yields_map any).
Qed.

Lemma grammar_nodes_all (l : list Expression) :
  Forall (fun e => grammar_nodes e = true) l -> forallb grammar_nodes l = true.
Proof. induction 1 as [| e l He _ IH]; cbn; [done |]. by rewrite He, IH. Qed.

Lemma yields_unaryPreFixParser fuel prev op :
  yields is_node prev -> yields unary_node op ->
  yields is_node (Parser.unaryPreFixParser fuel prev op).
Proof.
  intros Hprev Hop. induction fuel as [| fuel IH]; cbn [Parser.unaryPreFixParser]; [done |].
  apply yields_or; [| done].
  apply (yields_map (both unary_node is_node)); [by apply yields_seq |].
  intros [c e] [Hc He]. by apply Hc.
Qed.

Lemma yields_leftAssociativeBinaryOperatorParser prev op :
  yields is_node prev -> yields binary_node op ->
  yields is_node (Parser.leftAssociativeBinaryOperatorParser prev op).
Proof.
  intros Hprev Hop. unfold Parser.leftAssociativeBinaryOperatorParser.
  apply (yields_map (both is_node (Forall (both binary_node is_node)))).
  - apply yields_seq; [done |]. by apply yields_many, yields_seq.
  - intros [first rest] [Hfirst Hrest]. cbn [fst snd] in *.
    revert first Hfirst. induction Hrest as [| [c e] rest [Hc He] _ IH]; intros first Hfirst;
      cbn [foldl]; [done |].
    apply IH. by apply Hc.
Qed.

Lemma yields_rightAssociativeBinaryOperatorParser fuel prev op :
  yields is_node prev -> yields binary_node op ->
  yields is_node (Parser.rightAssociativeBinaryOperatorParser fuel prev op).
Proof.
  intros Hprev Hop. induction fuel as [| fuel IH];
    cbn [Parser.rightAssociativeBinaryOperatorParser]; [done |].
  apply (yields_chain is_node); [done |]. intros left_expression Hleft.
  apply yields_or; [| by apply yields_succeed].
  apply (yields_map (both binary_node is_node)); [by apply yields_seq |].
  intros [c e] [Hc He]. by apply Hc.
Qed.

Lemma yields_condition_parser fuel prev :
  yields is_node prev -> yields is_node (Parser.condition_parser fuel prev).
Proof.
  intros Hprev. induction fuel as [| fuel IH]; cbn [Parser.condition_parser]; [done |].
  apply (yields_chain is_node); [done |]. intros a Ha.
  apply yields_or; [| by apply yields_succeed].
  apply (yields_map (both any (both is_node (both any is_node)))).
  - apply yields_seq; [done |]. apply yields_seq; [done |]. by apply yields_seq.
  - intros [_if [condition [_else b]]] (_ & Hcondition & _ & Hb). cbn in *.
    unfold is_node in *. cbn. by rewrite Hcondition, Ha, Hb.
Qed.

Lemma yields_primary_parser expression_parser :
  yields is_node expression_parser ->
  yields is_node (Parser.primary_parser expression_parser).
Proof.
  intros Hexpression.
  assert (yields is_node Parser.variable_parser) as Hvariable.
  { unfold Parser.variable_parser, P.desc. by apply (yields_map any). }
  assert (yields is_node (Parser.parens_parser expression_parser)) as Hparens.
  { unfold Parser.parens_parser, P.desc.
    apply (yields_map (both any (both is_node any))).
    - apply yields_seq; [done |]. by apply yields_seq.
    - by intros [_open [expression _close]] (_ & Hnode & _). }
  assert (yields is_node (P.or Parser.variable_parser (Parser.parens_parser expression_parser)))
    as Hhead by by apply yields_or.
  assert (yields is_node (P.trim expression_parser P.optWhitespace)) as Htrimmed
    by by apply yields_trim.
  assert (yields (Forall is_node)
            (P.sepBy expression_parser (P.trim (P.string ",") P.optWhitespace)))
    as Helements by by apply yields_sepBy.
  unfold Parser.primary_parser. apply yields_alt. repeat constructor; try done.
  - unfold Parser.number_parser, P.desc. by apply (yields_map any).
  - unfold Parser.bool_parser, P.desc. apply yields_alt.
    repeat constructor; by apply (yields_map any).
  - unfold Parser.string_parser, P.desc. apply (yields_map any); [done |].
    by intros [_left [value _right]].
  - unfold Parser.list_parser, P.desc.
    apply (yields_map (both any (both is_node any))).
    + apply yields_seq; [done |]. apply yields_seq; [| done].
      apply (yields_map (Forall is_node)); [done |].
      intros elements Hall. by apply grammar_nodes_all.
    + by intros [_open [elements _close]] (_ & Hnode & _).
  - unfold Parser.apply_parser.
    apply (yields_map (both is_node (both any (both (Forall is_node) any)))).
    + apply yields_seq; [done |]. apply yields_seq; [done |].
      apply yields_seq; [| done]. by apply yields_trim.
    + intros [fn [_open [args _close]]] (Hfn & _ & Hargs & _). cbn in *.
      unfold is_node in *. cbn. by rewrite Hfn, (grammar_nodes_all _ Hargs).
  - unfold Parser.index_parser, P.desc.
    apply (yields_map (both is_node (both any (both is_node any)))).
    + apply yields_seq; [done |]. apply yields_seq; [done |]. by apply yields_seq.
    + intros [variable [_open [index _close]]] (Hvar & _ & Hindex & _). cbn in *.
      unfold is_node in *. cbn. by rewrite Hvar, Hindex.
  - unfold Parser.slice_parser, P.desc.
    apply (yields_map (both is_node (both any (both is_node (both any (both is_node any)))))).
    + apply yields_seq; [done |]. apply yields_seq; [done |]. apply yields_seq; [done |].
      apply yields_seq; [done |]. by apply yields_seq.
    + intros [variable [_open [from [_colon [to _close]]]]]
        (Hvar & _ & Hfrom & _ & Hto & _). cbn in *.
      unfold is_node in *. cbn. by rewrite Hvar, Hfrom, Hto.
Qed.

Lemma yields_expression_parser fuel : yields is_node (Parser.expression_parser fuel).
Proof.
  induction fuel as [| fuel IH]; cbn [Parser.expression_parser]; [done |].
  unfold Parser.associativity_table. cbn [foldl].
  repeat first
    [ apply yields_rightAssociativeBinaryOperatorParser
    | apply yields_leftAssociativeBinaryOperatorParser
    | apply yields_unaryPreFixParser
    | apply yields_condition_parser
    | by apply yields_primary_parser
    | apply yields_createOperatorParser; repeat constructor;
      cbn [Parser.constructor Parser.operator]; intros ? ?; unfold is_node; cbn;
      try (intros -> ->); done ].
Qed.

(** X18.  The parser builds only nodes of the classes the grammar names.
    The tree of a parsed text has no [Factorial] node, for which the
    grammar has no operator, and no node of the base classes
    [UnaryOperator] and [BinaryOperator], whose [resolve] throws
    "Method not implemented.". *)
Theorem tryParse_builds_grammar_nodes (input : string) (e : Expression) (rest : string) :
  Parser.tryParse input = P.Success e rest -> grammar_nodes e = true.
Proof.
  unfold Parser.tryParse, P.skip. intros Hparse.
  assert (yields (fun e => grammar_nodes e = true)
            (P.chain (Parser.expression_parser (String.length input + 2))
               (fun a => P.result P.eof a))) as Hyields.
  { apply (yields_chain (fun e => grammar_nodes e = true));
      [apply yields_expression_parser |].
    intros a Ha. unfold P.result. by apply (yields_map any). }
  exact (Hyields input e rest Hparse).
Qed.

Lemma tryParse_builds_grammar_nodes_witness :
  Parser.tryParse "not -x ** 2" = P.Success (Not (Negate (Exponentiate (Variable_ "x") (Number 2))))
                                    EmptyString /\
  grammar_nodes (Not (Negate (Exponentiate (Variable_ "x") (Number 2)))) = true.
Proof.
  split; [by vm_compute |].
  exact (tryParse_builds_grammar_nodes "not -x ** 2" _ EmptyString ltac:(by vm_compute)).
Defined.

(** *** Evaluation of parsed trees *)

Section Halts.
Context `{Host}.
Hypothesis host_ok : host_calls_halt.

Lemma halts_ret {A} (a : A) : halts (ret a).
Proof. done. Qed.

Lemma halts_throw {A} (e : Error) :
  e <> MethodNotImplemented -> (forall value, e <> FactorialNotDefined value) ->
  halts (throw (A := A) e).
Proof. by intros He1 He2 st. Qed.

Lemma halts_bind {A B} (m : Eff State A) (k : A -> Eff State B) :
  halts m -> (forall a, halts (k a)) -> halts (bind m k).
Proof.
  intros Hm Hk st. unfold bind. specialize (Hm st).
  destruct (m st) as [[a | e |] st1]; cbn [fst] in *; [apply Hk | done | done].
Qed.

Lemma halts_Variable_resolve x : halts (Variable_resolve x).
Proof.
  intros st. unfold Variable_resolve, bind, get_environment. cbn.
  by destruct (environment st !! x) as [[] |].
Qed.

Lemma halts_new_array elements : halts (new_array elements).
Proof. done. Qed.

Lemma halts_map_in_order {A B} (f : A -> Eff State B) l :
  Forall (fun a => halts (f a)) l -> halts (map_in_order f l).
Proof.
  induction 1 as [| a l Ha Hl IH]; cbn [map_in_order]; [by apply halts_ret |].
  apply halts_bind; [done |]. intros b.
  apply halts_bind; [done |]. intros bs. by apply halts_ret.
Qed.

Lemma halts_each l :
  list_all Expression (fun e => grammar_nodes e = true -> halts (resolve e)) l ->
  forallb grammar_nodes l = true ->
  Forall (fun e => halts (resolve e)) l.
Proof.
  induction 1 as [| e He l Hl IH]; cbn [forallb]; [by constructor |].
  intros [? ?]%andb_true_iff. constructor; [by apply He | by apply IH].
Qed.

Ltac halts_step :=
  first
    [ apply halts_bind; [| intros ?]
    | apply halts_Variable_resolve
    | apply halts_new_array
    | apply host_ok
    | by apply halts_map_in_order, halts_each
    | by apply halts_ret
    | by apply halts_throw
    | match goal with
      | IH : _ -> halts (resolve ?e) |- halts (resolve ?e) => by apply IH
      | |- halts (if ?b then _ else _) => destruct b
      | |- halts (match ?v with _ => _ end) => destruct v
      end ].

Lemma resolve_halts (e : Expression) : grammar_nodes e = true -> halts (resolve e).
Proof using All.
  induction e using Expression_ind; intros Hnodes;
    cbn [resolve grammar_nodes binary get_environment set_environment] in *;
    try discriminate Hnodes;
    repeat match goal with
      | H : _ && _ = true |- _ => apply andb_true_iff in H as [? ?]
      end;
    try (repeat halts_step; fail).
  - destruct e1; try (by apply halts_throw).
    apply halts_bind; [by apply IHe2 |]. intros expression_result.
    apply halts_bind; [done |]. intros environment.
    apply halts_bind; [done |]. intros _. by apply halts_ret.
  - apply halts_Variable_resolve.
Qed.

End Halts.

(** X19.  Evaluating a parsed tree ends.  The loop of [Factorial] is the
    only code of [resolve] that may run forever, and [Factorial] and the
    base classes are the only nodes that throw "Factorial of ... is not
    defined" and "Method not implemented."; so on a host whose functions
    return or throw an exception of their own, resolving a tree that has
    only the nodes the parser builds returns or throws, and throws neither
    of these two errors. *)
Theorem resolve_of_grammar_nodes_halts `{Host} (e : Expression) (st : State) :
  host_calls_halt ->
  grammar_nodes e = true ->
  (resolve e st).1 <> Diverge /\
  (resolve e st).1 <> Throw MethodNotImplemented /\
  forall value, (resolve e st).1 <> Throw (FactorialNotDefined value).
Proof.
  intros Hhost Hnodes. pose proof (resolve_halts Hhost e Hnodes st) as Hhalts.
  destruct (resolve e st).1 as [v | error |]; [done | | done].
  destruct Hhalts as [Hmethod Hfactorial].
  split; [done |]. split; [by intros [= ->] |]. intros value [= ->].
  by apply (Hfactorial value).
Qed.

Lemma resolve_of_grammar_nodes_halts_witness :
  host_calls_halt (H := example_host) /\
  grammar_nodes (Apply (Variable_ "f") [Number 4]) = true /\
  (resolve (H := example_host) (Apply (Variable_ "f") [Number 4])
     (initial {[ "f" := VFunction 0 ]})).1 <> Diverge.
Proof.
  assert (host_calls_halt (H := example_host)) as Hhost.
  { intros f arguments st. destruct f; destruct arguments as [| [] ?]; by cbn. }
  split; [exact Hhost |]. split; [reflexivity |].
  exact (proj1 (resolve_of_grammar_nodes_halts (H := example_host)
                  (Apply (Variable_ "f") [Number 4]) (initial {[ "f" := VFunction 0 ]})
                  Hhost eq_refl)).
Defined.
